(** * GraphRAG over Kuzu: the answer pipeline and its evaluation harness

    A shallow embedding of [src/kuzu/rag.py] and [src/kuzu/evaluate.py].

    Conventions of the embedding.
    - Python [str] is [string]; the texts handled here are ASCII, so the
      character-wise operations ([strip], [lower], [isdigit], [splitlines],
      [int()] of a text) are written out on the 7-bit range.  Where Python
      follows Unicode beyond it (digits and whitespace of other scripts),
      the text is outside the embedding, and [json.loads] is embedded
      without the interpreter's recursion limit.
    - A result cell is [None], a [bool], an [int], a [str], or a value that
      cannot be hashed (a [list] or a [dict]); floats and dates in cells are
      outside the embedding.
    - Python [int] is [Z]; a [float] read by [json.loads] is kept as its
      decimal literal and rounded to binary64 where [int()] consumes it.
    - A raised exception is a value of [exn]; a computation that may raise
      returns an [outcome].
    - Calls that leave the process (the Kuzu connection, the BAML functions,
      the judge model, the traceback renderer) are events of a small
      interaction monad [prog]; a [handler] answers them, possibly by raising,
      and [exec] records every call it answers. *)

From Stdlib Require Import ZArith Ascii.
From stdpp Require Import base option list sorting strings pretty gmap.

Local Open Scope Z_scope.

(** ** Python built-ins used by the sources *)

Module Py.

(** Exception classes that the modelled code raises or catches.
    [ExceptionOther] is any other subclass of [Exception] (a backend or
    service error); [BaseExceptionOther] is a [BaseException] that is not an
    [Exception] (e.g. [KeyboardInterrupt]). *)
Inductive exn : Type :=
| JSONDecodeError
| KeyError
| ValueError
| TypeError
| AttributeError
| IndexError
| OverflowError
| ExceptionOther (name : string)
| BaseExceptionOther (name : string).

(** [isinstance(e, Exception)] *)
Definition is_Exception (e : exn) : bool :=
  match e with BaseExceptionOther _ => false | _ => true end.

Inductive outcome (A : Type) : Type :=
| Ok (a : A)
| Raised (e : exn).
Global Arguments Ok {A} a.
Global Arguments Raised {A} e.

(** Double quote and line feed, as characters and one-character strings. *)
Definition dquote : ascii := "034"%char.
Definition DQ : string := String dquote "".
Definition NL : string := String "010"%char "".

(** [sep.join(parts)] *)
Definition join (sep : string) (parts : list string) : string :=
  String.concat sep parts.

(** [ch.isspace()] on ASCII: TAB, LF, VT, FF, CR, FS, GS, RS, US, SPACE. *)
Definition isspace (c : ascii) : bool :=
  match c with
  | "009" | "010" | "011" | "012" | "013"
  | "028" | "029" | "030" | "031" | " " => true
  | _ => false
  end%char.

Fixpoint lstrip (s : string) : string :=
  match s with
  | String c r => if isspace c then lstrip r else s
  | EmptyString => EmptyString
  end.

(** [s.strip()] *)
Definition strip (s : string) : string :=
  String.rev (lstrip (String.rev (lstrip s))).

(** [ch.lower()] on ASCII. *)
Definition lower_char (c : ascii) : ascii :=
  let n := nat_of_ascii c in
  if (65 <=? n)%nat && (n <=? 90)%nat then ascii_of_nat (n + 32) else c.

(** [s.lower()] *)
Fixpoint lower (s : string) : string :=
  match s with
  | String c r => String (lower_char c) (lower r)
  | EmptyString => EmptyString
  end.

(** [s.isascii()]: every character is below U+0080. *)
Fixpoint isascii (s : string) : bool :=
  match s with
  | String c r => (nat_of_ascii c <? 128)%nat && isascii r
  | EmptyString => true
  end.

(** [ch.isdigit()] together with [int(ch)] on ASCII. *)
Definition digit_of (c : ascii) : option Z :=
  Z.of_nat <$> Ascii.is_nat c.

(** [s.splitlines()] on ASCII: a line ends at LF, CR, CR LF, VT, FF, FS, GS
    or RS; no empty last line is produced after a final line end. *)
Definition is_linebreak (c : ascii) : bool :=
  match c with
  | "010" | "011" | "012" | "013" | "028" | "029" | "030" => true
  | _ => false
  end%char.

Fixpoint splitlines_go (cur : string) (s : string) : list string :=
  match s with
  | EmptyString => if decide (cur = "") then [] else [String.rev cur]
  | String c r =>
      if is_linebreak c then
        match c, r with
        | "013"%char, String "010"%char r' =>
            String.rev cur :: splitlines_go "" r'
        | _, _ => String.rev cur :: splitlines_go "" r
        end
      else splitlines_go (String c cur) r
  end.

Definition splitlines (s : string) : list string := splitlines_go "" s.

(** [sorted(l, key=key)]: a stable ascending sort that compares keys with
    [<] only.  Written as stable insertion from the right. *)
Section sorted.
Context {A K : Type} (key : A → K) (lt : K → K → bool).

Fixpoint insert_sorted (x : A) (l : list A) : list A :=
  match l with
  | [] => [x]
  | y :: l' =>
      if lt (key y) (key x) then y :: insert_sorted x l' else x :: l
  end.

Definition sorted (l : list A) : list A := foldr insert_sorted [] l.
End sorted.

(** The values a result cell holds: [None], [bool], [int], [str], and the
    values Python cannot hash: a [list] or a [dict] (what the backend
    returns for a LIST, ARRAY, STRUCT, MAP, NODE or REL value), kept as its
    [str()].  Cells that hold floats, dates or other scalars are outside the
    embedding. *)
Inductive value : Type :=
| VNone
| VBool (b : bool)
| VInt (z : Z)
| VStr (s : string)
| VUnhashable (text : string).

(** [str(v)] *)
Definition str (v : value) : string :=
  match v with
  | VNone => "None"
  | VBool true => "True"
  | VBool false => "False"
  | VInt z => pretty z
  | VStr s => s
  | VUnhashable text => text
  end.

(** Whether [hash(v)] returns: it raises [TypeError] for a list or dict. *)
Definition hashable (v : value) : bool :=
  match v with VUnhashable _ => false | _ => true end.

(** [hash(tuple(item))] hashes every cell of the row. *)
Definition hash_tuple (key : list value) : outcome unit :=
  if forallb hashable key then Ok () else Raised TypeError.

(** [a == b].  [bool] is a subclass of [int]: [True == 1], [False == 0].
    No list or dict is compared by the sources, since a row that holds one
    fails at hashing before any comparison; two of them are taken as equal
    when their texts are. *)
Definition value_eqb (a b : value) : bool :=
  match a, b with
  | VNone, VNone => true
  | VStr s, VStr t => bool_decide (s = t)
  | VBool x, VBool y => bool_decide (x = y)
  | VInt x, VInt y => bool_decide (x = y)
  | VBool x, VInt y | VInt y, VBool x =>
      bool_decide ((if x then 1 else 0) = y)
  | VUnhashable s, VUnhashable t => bool_decide (s = t)
  | _, _ => false
  end.

(** Equality of tuples: same length, equal component by component. *)
Fixpoint tuple_eqb (r s : list value) : bool :=
  match r, s with
  | [], [] => true
  | a :: r', b :: s' => value_eqb a b && tuple_eqb r' s'
  | _, _ => false
  end.

End Py.
Import Py.

Global Instance outcome_ret : MRet outcome := @Ok.
Global Instance outcome_bind : MBind outcome := λ A B f o,
  match o with Ok a => f a | Raised e => Raised e end.
Global Instance outcome_fmap : FMap outcome := λ A B f o,
  match o with Ok a => Ok (f a) | Raised e => Raised e end.

(** ** Calls that leave the process *)

(** One row of [conn._get_rel_table_names()]. *)
Record rel_table := { rel_name : string; rel_src : string; rel_dst : string }.

(** One row of [CALL TABLE_INFO(...)]: [row[0]], [row[1]], [row[2]]. *)
Record table_info_row :=
  { ti_id : Z; ti_name : string; ti_type : string }.

(** What [conn.execute(cypher)] hands back: the column names and the rows the
    cursor yields, in order. *)
Record cursor :=
  { get_column_names : list string; cursor_rows : list (list value) }.

(** One row of [csv.DictReader]: the cell under each header; a header the
    row is too short for is bound to [None]. *)
Definition csv_row : Type := gmap string (option string).

Inductive event : Type → Type :=
    (** the rows [csv.DictReader] yields for the file at [path] *)
| CsvDictReader (path : string) : event (list csv_row)
| GetNodeTableNames : event (list string)
| GetRelTableNames : event (list rel_table)
| ExecuteTableInfo (stmt : string) : event (list table_info_row)
| Execute (cypher : string) : event cursor
    (** [b.RAGText2Cypher(schema, question)]: a query object, or [None] *)
| RAGText2Cypher (baml_schema question : string) : event (option string)
    (** [b.RAGAnswerQuestion(question, context).answer] *)
| RAGAnswerQuestion (question context : string) : event string
    (** [_get_judge_client().models.generate_content(..., contents=prompt)
        .text] *)
| GenerateContent (prompt : string) : event string
    (** [traceback.format_exc()] inside the handler of [e] *)
| FormatExc (e : exn) : event string.

Inductive prog (A : Type) : Type :=
| Ret (a : A)
| Raise (e : exn)
| Vis {R : Type} (ev : event R) (k : outcome R → prog A).
Global Arguments Ret {A} a.
Global Arguments Raise {A} e.
Global Arguments Vis {A R} ev k.

Fixpoint bind {A B} (p : prog A) (f : A → prog B) : prog B :=
  match p with
  | Ret a => f a
  | Raise e => Raise e
  | Vis ev k => Vis ev (λ o, bind (k o) f)
  end.

Global Instance prog_ret : MRet prog := @Ret.
Global Instance prog_bind : MBind prog := λ A B f p, bind p f.

(** Perform a call; an exception raised by the callee is raised here. *)
Definition call {R} (ev : event R) : prog R :=
  Vis ev (λ o, match o with Ok r => Ret r | Raised e => Raise e end).

(** Run a pure computation that may raise. *)
Definition lift {A} (o : outcome A) : prog A :=
  match o with Ok a => Ret a | Raised e => Raise e end.

(** [try: p  except <classes>: c e].  [c e = None] when the [except] clause
    does not match [e], which then keeps propagating. *)
Fixpoint try_except {A} (p : prog A) (c : exn → option (prog A)) : prog A :=
  match p with
  | Ret a => Ret a
  | Raise e => match c e with Some q => q | None => Raise e end
  | Vis ev k => Vis ev (λ o, try_except (k o) c)
  end.

(** The environment: how each call is answered in a state of the world. *)
Definition handler (W : Type) : Type := ∀ R, event R → W → outcome R * W.

(** A call that was made. *)
Inductive made : Type :=
| Made {R : Type} (ev : event R).

(** Running a program: its outcome, the final state of the world and the
    calls it made, in order. *)
Fixpoint exec {W A} (h : handler W) (p : prog A) (w : W)
  : outcome A * W * list made :=
  match p with
  | Ret a => (Ok a, w, [])
  | Raise e => (Raised e, w, [])
  | Vis ev k =>
      let '(o, w1) := h _ ev w in
      let '(r, w2, t) := exec h (k o) w1 in
      (r, w2, Made ev :: t)
  end.

Definition is_GenerateContent (c : made) : bool :=
  match c with Made (GenerateContent _) => true | _ => false end.

(** ** rag.py *)

(** Order of strings and of tuples under [<]: tuples compare by their first
    differing component.  A triple is written [(a, (b, c))]. *)
Definition str_lt (s t : string) : bool := String.ltb s t.

Definition lex_lt {A B} `{EqDecision A} (ltA : A → A → bool)
    (ltB : B → B → bool) (a b : A * B) : bool :=
  if decide (a.1 = b.1) then ltB a.2 b.2 else ltA a.1 b.1.

Definition pair_lt : string * string → string * string → bool :=
  lex_lt str_lt str_lt.

Definition triple_lt
  : string * (string * string) → string * (string * string) → bool :=
  lex_lt str_lt pair_lt.

Record prop := { prop_name : string; prop_type : string }.
Record node_schema :=
  { node_label : string; node_properties : list prop }.
Record edge_schema :=
  { edge_label : string; edge_src : string; edge_dst : string;
    edge_properties : list prop }.
Record schema_dict :=
  { schema_nodes : list node_schema; schema_edges : list edge_schema }.

Definition prop_key (p : prop) : string * string :=
  (prop_name p, prop_type p).
Definition rel_key (rel : rel_table) : string * (string * string) :=
  (rel_src rel, (rel_name rel, rel_dst rel)).

(** The property list of one table: every row appended, then sorted. *)
Definition table_properties (rows : list table_info_row) : list prop :=
  sorted prop_key pair_lt
    (map (λ row, {| prop_name := ti_name row; prop_type := ti_type row |})
       rows).

Definition table_info_stmt (table : string) : string :=
  "CALL TABLE_INFO('" +:+ table +:+ "') RETURN *;".

Fixpoint get_schema_nodes (nodes : list string) (acc : list node_schema)
  : prog (list node_schema) :=
  match nodes with
  | [] => Ret acc
  | node :: rest =>
      node_properties ← call (ExecuteTableInfo (table_info_stmt node));
      get_schema_nodes rest
        (acc ++ [ {| node_label := node;
                     node_properties := table_properties node_properties |} ])
  end.

Fixpoint get_schema_edges (relationships : list rel_table)
    (acc : list edge_schema) : prog (list edge_schema) :=
  match relationships with
  | [] => Ret acc
  | rel :: rest =>
      rel_properties ←
        call (ExecuteTableInfo (table_info_stmt (rel_name rel)));
      get_schema_edges rest
        (acc ++ [ {| edge_label := rel_name rel;
                     edge_src := rel_src rel;
                     edge_dst := rel_dst rel;
                     edge_properties := table_properties rel_properties |} ])
  end.

Definition get_schema_dict : prog schema_dict :=
  node_names ← call GetNodeTableNames;
  let nodes := sorted id str_lt node_names in
  rel_names ← call GetRelTableNames;
  let relationships := sorted rel_key triple_lt rel_names in
  schema_nodes ← get_schema_nodes nodes [];
  schema_edges ← get_schema_edges relationships [];
  mret {| schema_nodes := schema_nodes; schema_edges := schema_edges |}.

Definition prop_line (p : prop) : string :=
  "    - " +:+ prop_name p +:+ ": " +:+ lower (prop_type p).

Definition edge_direction_line (edge : edge_schema) : string :=
  "(:" +:+ edge_src edge +:+ ") -[:" +:+ edge_label edge +:+ "]-> (:"
  +:+ edge_dst edge +:+ ")".

Definition node_lines (node : node_schema) : list string :=
  ("  - " +:+ node_label node) :: map prop_line (node_properties node).

Definition edge_lines (edge : edge_schema) : list string :=
  match edge_properties edge with
  | [] => []
  | props => ("- " +:+ edge_label edge) :: map prop_line props
  end.

(** The text rendered from a schema dictionary. *)
Definition schema_text (schema : schema_dict) : string :=
  let lines :=
    ["ALWAYS RESPECT THE EDGE DIRECTIONS:" +:+ NL +:+ "---"]
    ++ map edge_direction_line (schema_edges schema)
    ++ ["---"]
    ++ [NL +:+ "Node properties:"]
    ++ concat (map node_lines (schema_nodes schema))
    ++ [NL +:+ "Edge properties:"]
    ++ concat (map edge_lines (schema_edges schema)) in
  join NL lines.

Definition get_schema_baml : prog string :=
  schema ← get_schema_dict;
  mret (schema_text schema).

(** [GraphRAG.__init__]: the schema text is computed once and kept. *)
Record GraphRAG := { baml_schema : string }.

Definition GraphRAG_init : prog GraphRAG :=
  text ← get_schema_baml;
  mret {| baml_schema := text |}.

(** [types.Answer] *)
Record Answer := { answer_question : string; answer : string }.

(** The row loop of [execute_query]: [seen] is the set of row tuples met so
    far, [rows] the rows kept.  Looking a tuple up in a set hashes it first,
    also when the set is empty; membership is then equality with one of the
    members. *)
Fixpoint collect_rows (items : list (list value))
    (seen rows : list (list value)) : outcome (list (list value)) :=
  match items with
  | [] => Ok rows
  | item :: rest =>
      let key := item in
      _ ← hash_tuple key;
      if existsb (tuple_eqb key) seen
      then collect_rows rest seen rows
      else collect_rows rest (key :: seen) (rows ++ [item])
  end.

(** [r[0]] *)
Definition first_cell (r : list value) : outcome value :=
  match r with v :: _ => Ok v | [] => Raised IndexError end.

Fixpoint first_cells (rows : list (list value)) : outcome (list string) :=
  match rows with
  | [] => Ok []
  | r :: rest =>
      v ← first_cell r; strs ← first_cells rest; mret (str v :: strs)
  end.

(** [f"{col}: {val}" for col, val in zip(columns, row) if val is not None] *)
Fixpoint row_pairs (columns : list string) (row : list value) : list string :=
  match columns, row with
  | col :: columns', val :: row' =>
      match val with
      | VNone => row_pairs columns' row'
      | _ => (col +:+ ": " +:+ str val) :: row_pairs columns' row'
      end
  | _, _ => []
  end.

Definition serialize_rows (columns : list string) (rows : list (list value))
  : outcome string :=
  match rows with
  | [] => Ok ""
  | _ =>
      if decide (length columns = 1%nat) then
        strs ← first_cells rows; mret (join ", " strs)
      else
        Ok (join NL (map (λ row, join " | " (row_pairs columns row)) rows))
  end.

Definition execute_query (question cypher : string) : prog Answer :=
  response ← call (Execute cypher);
  let columns := get_column_names response in
  rows ← lift (collect_rows (cursor_rows response) [] []);
  result_str ← lift (serialize_rows columns rows);
  mret {| answer_question := question; answer := result_str |}.

(** The dictionary [run] returns. *)
Record rag_result :=
  { rag_question : string; rag_cypher : string; rag_response : string }.

Definition run (self : GraphRAG) (question : string) : prog rag_result :=
  cypher ← call (RAGText2Cypher (baml_schema self) question);
  let result :=
    {| rag_question := question;
       rag_cypher := match cypher with Some query => query | None => "N/A" end;
       rag_response := "N/A" |} in
  match cypher with
  | Some query =>
      query_response ← execute_query question query;
      r_answer ← call (RAGAnswerQuestion question (answer query_response));
      mret {| rag_question := rag_question result;
              rag_cypher := rag_cypher result;
              rag_response := r_answer |}
  | None => mret result
  end.

(** ** The [json] module and [int()] *)

Module Json.

(** A Python [float], kept as the decimal literal it was read from
    ([mantissa * 10 ^ exp10], signed); the rounding to binary64 is applied
    where the value is used. *)
Inductive pyfloat : Type :=
| FNaN
| FInf (negative : bool)
| FDec (negative : bool) (mantissa : Z) (exp10 : Z).

(** The objects [json.loads] builds. *)
#[local] Set Warnings "-register-all".
Inductive json : Type :=
| JNone
| JBool (b : bool)
| JInt (z : Z)
| JFloat (f : pyfloat)
| JStr (s : string)
| JList (l : list json)
| JDict (d : list (string * json)).

Definition code (c : ascii) : Z := Z.of_N (N_of_ascii c).
Definition chr (n : Z) : ascii := ascii_of_N (Z.to_N n).

Definition is_ws (c : ascii) : bool :=
  match c with " " | "009" | "010" | "013" => true | _ => false end%char.

Fixpoint skip_ws (s : string) : string :=
  match s with
  | String c r => if is_ws c then skip_ws r else s
  | EmptyString => EmptyString
  end.

Fixpoint starts_with (p s : string) : option string :=
  match p, s with
  | EmptyString, _ => Some s
  | String a p', String b s' =>
      if decide (a = b) then starts_with p' s' else None
  | _, _ => None
  end.

Definition hex_of (c : ascii) : option Z :=
  let n := code c in
  if (48 <=? n) && (n <=? 57) then Some (n - 48)
  else if (97 <=? n) && (n <=? 102) then Some (n - 87)
  else if (65 <=? n) && (n <=? 70) then Some (n - 55)
  else None.

(** Four hexadecimal digits. *)
Definition decode_uXXXX (s : string) : option (Z * string) :=
  match s with
  | String a (String b (String c (String d r))) =>
      x ← hex_of a; y ← hex_of b; z ← hex_of c; t ← hex_of d;
      Some (((x * 16 + y) * 16 + z) * 16 + t, r)
  | _ => None
  end.

(** The characters of [chr(n)], as UTF-8, most significant first. *)
Definition utf8 (n : Z) : list ascii :=
  if n <? 128 then [chr n]
  else if n <? 2048 then [chr (192 + n / 64); chr (128 + n mod 64)]
  else if n <? 65536 then
    [chr (224 + n / 4096); chr (128 + (n / 64) mod 64);
     chr (128 + n mod 64)]
  else
    [chr (240 + n / 262144); chr (128 + (n / 4096) mod 64);
     chr (128 + (n / 64) mod 64); chr (128 + n mod 64)].

Definition push (cs : list ascii) (acc : string) : string :=
  foldl (λ a c, String c a) acc cs.

(** The body of a string literal, after the opening quote ([strict]
    mode); [acc] holds the characters read so far, last first. *)
Fixpoint scanstring (fuel : nat) (s acc : string)
  : option (string * string) :=
  match fuel with
  | O => None
  | S fuel =>
      match s with
      | EmptyString => None
      | String c r =>
          if decide (c = dquote) then Some (String.rev acc, r)
          else if decide (c = "\"%char) then
            match r with
            | String e r' =>
                match e with
                | "034"%char => scanstring fuel r' (String dquote acc)
                | "\"%char => scanstring fuel r' (String "\" acc)
                | "/"%char => scanstring fuel r' (String "/" acc)
                | "b"%char => scanstring fuel r' (String "008" acc)
                | "f"%char => scanstring fuel r' (String "012" acc)
                | "n"%char => scanstring fuel r' (String "010" acc)
                | "r"%char => scanstring fuel r' (String "013" acc)
                | "t"%char => scanstring fuel r' (String "009" acc)
                | "u"%char =>
                    '(uni, r2) ← decode_uXXXX r';
                    let paired :=
                      if (55296 <=? uni) && (uni <=? 56319) then
                        r3 ← starts_with "\u" r2;
                        '(uni2, r4) ← decode_uXXXX r3;
                        if (56320 <=? uni2) && (uni2 <=? 57343)
                        then Some (65536 + ((uni - 55296) * 1024
                                            + (uni2 - 56320)), r4)
                        else None
                      else None in
                    let '(uni, r2) := default (uni, r2) paired in
                    scanstring fuel r2 (push (utf8 uni) acc)
                | _ => None
                end
            | EmptyString => None
            end
          else if code c <? 32 then None
          else scanstring fuel r (String c acc)
      end
  end.

(** A run of decimal digits: the value read on top of [acc], how many
    digits were read, and the rest. *)
Fixpoint digits (s : string) (acc : Z) (n : Z) : Z * Z * string :=
  match s with
  | String c r =>
      match digit_of c with
      | Some d => digits r (10 * acc + d) (n + 1)
      | None => (acc, n, s)
      end
  | EmptyString => (acc, n, s)
  end.

(** [sys.int_info.default_max_str_digits]: [int()] of a text with more
    decimal digits raises [ValueError]. *)
Definition MAX_STR_DIGITS : Z := 4300.

(** A number at the head of [s]: an optional minus sign; an integer part
    that is 0 or starts with a non-zero digit; optionally a dot and at
    least one digit; optionally e or E, a sign and at least one digit.
    Without fraction and exponent the number is an [int], which the scanner
    builds with [int()]: that raises [ValueError] when the literal has more
    than [MAX_STR_DIGITS] digits. *)
Definition match_number (s : string) : option (outcome json * string) :=
  let '(negative, s1) :=
    match s with String "-" r => (true, r) | _ => (false, s) end in
  '(int_part, int_len, s2) ←
    match s1 with
    | String "0" r => Some (0, 1, r)
    | _ => let '(v, n, r) := digits s1 0 0 in
           if n =? 0 then None else Some (v, n, r)
    end;
  let '(frac, s3) :=
    match s2 with
    | String "." r =>
        let '(v, n, r') := digits r 0 0 in
        if n =? 0 then (None, s2) else (Some (v, n), r')
    | _ => (None, s2)
    end in
  let '(exp, s4) :=
    match s3 with
    | String c r =>
        if decide (c = "e"%char ∨ c = "E"%char) then
          let '(neg_exp, r1) :=
            match r with
            | String "-" r' => (true, r')
            | String "+" r' => (false, r')
            | _ => (false, r)
            end in
          let '(v, n, r2) := digits r1 0 0 in
          if n =? 0 then (None, s3)
          else (Some (if neg_exp : bool then - v else v), r2)
        else (None, s3)
    | EmptyString => (None, s3)
    end in
  match frac, exp with
  | None, None =>
      if MAX_STR_DIGITS <? int_len then Some (Raised ValueError, s4)
      else Some (Ok (JInt (if negative : bool then - int_part else int_part)),
                 s4)
  | _, _ =>
      let '(fv, fn) := default (0, 0) frac in
      Some (Ok (JFloat (FDec negative (int_part * 10 ^ fn + fv)
                          (default 0 exp - fn))), s4)
  end.

(** [dict(pairs)]: a later pair for a key replaces the value of the
    earlier one. *)
Fixpoint dict_set (d : list (string * json)) (key : string) (v : json)
  : list (string * json) :=
  match d with
  | [] => [(key, v)]
  | (k, x) :: d' =>
      if decide (k = key) then (k, v) :: d' else (k, x) :: dict_set d' key v
  end.

Definition dict (pairs : list (string * json)) : list (string * json) :=
  foldl (λ d kv, dict_set d kv.1 kv.2) [] pairs.

Fixpoint dict_lookup (d : list (string * json)) (key : string)
  : option json :=
  match d with
  | [] => None
  | (k, x) :: d' => if decide (k = key) then Some x else dict_lookup d' key
  end.

(** What the scanner raises where it finds no JSON. *)
Definition decode_error {A} (o : option A) : outcome A :=
  match o with Some a => Ok a | None => Raised JSONDecodeError end.

(** The scanner.  Every call consumes a character before it recurses, so
    twice the length of the text is fuel enough. *)
Fixpoint scan_once (fuel : nat) (s : string) : outcome (json * string) :=
  match fuel with
  | O => Raised JSONDecodeError
  | S fuel =>
      match s with
      | EmptyString => Raised JSONDecodeError
      | String c r =>
          if decide (c = dquote) then
            '(text, r') ← decode_error (scanstring (String.length r) r "");
            Ok (JStr text, r')
          else if decide (c = "{"%char) then
            match skip_ws r with
            | String "}" r' => Ok (JDict [], r')
            | r' => parse_object fuel r' []
            end
          else if decide (c = "["%char) then
            match skip_ws r with
            | String "]" r' => Ok (JList [], r')
            | r' => parse_array fuel r' []
            end
          else
            match starts_with "null" s, starts_with "true" s,
                  starts_with "false" s with
            | Some r', _, _ => Ok (JNone, r')
            | _, Some r', _ => Ok (JBool true, r')
            | _, _, Some r' => Ok (JBool false, r')
            | None, None, None =>
                match match_number s with
                | Some (number, r') => value ← number; Ok (value, r')
                | None =>
                    match starts_with "NaN" s, starts_with "Infinity" s,
                          starts_with "-Infinity" s with
                    | Some r', _, _ => Ok (JFloat FNaN, r')
                    | _, Some r', _ => Ok (JFloat (FInf false), r')
                    | _, _, Some r' => Ok (JFloat (FInf true), r')
                    | None, None, None => Raised JSONDecodeError
                    end
                end
            end
      end
  end
with parse_object (fuel : nat) (s : string) (pairs : list (string * json))
  : outcome (json * string) :=
  match fuel with
  | O => Raised JSONDecodeError
  | S fuel =>
      match s with
      | String "034" r =>
          '(key, r1) ← decode_error (scanstring (String.length r) r "");
          match skip_ws r1 with
          | String ":" r2 =>
              '(value, r3) ← scan_once fuel (skip_ws r2);
              let pairs := pairs ++ [(key, value)] in
              match skip_ws r3 with
              | String "}" r4 => Ok (JDict (dict pairs), r4)
              | String "," r4 => parse_object fuel (skip_ws r4) pairs
              | _ => Raised JSONDecodeError
              end
          | _ => Raised JSONDecodeError
          end
      | _ => Raised JSONDecodeError
      end
  end
with parse_array (fuel : nat) (s : string) (values : list json)
  : outcome (json * string) :=
  match fuel with
  | O => Raised JSONDecodeError
  | S fuel =>
      '(value, r1) ← scan_once fuel s;
      let values := values ++ [value] in
      match skip_ws r1 with
      | String "]" r2 => Ok (JList values, r2)
      | String "," r2 => parse_array fuel (skip_ws r2) values
      | _ => Raised JSONDecodeError
      end
  end.

(** [json.loads(s)].  The scanner is written without a bound on nesting:
    CPython raises [RecursionError] for a text nested deeper than the
    interpreter's recursion limit allows (about a thousand levels by
    default), and such texts are outside the embedding. *)
Definition loads (s : string) : outcome json :=
  let s := skip_ws s in
  '(obj, rest) ← scan_once (2 * String.length s + 2) s;
  match skip_ws rest with
  | EmptyString => Ok obj
  | _ => Raised JSONDecodeError
  end.

(** [int(f)] for a float: the literal is rounded to the nearest binary64
    (ties to even) and the result truncated towards zero. *)
Definition float_to_int (f : pyfloat) : outcome Z :=
  match f with
  | FNaN => Raised ValueError
  | FInf _ => Raised OverflowError
  | FDec negative m e =>
      let '(n, d) := if 0 <=? e then (m * 10 ^ e, 1) else (m, 10 ^ (- e)) in
      if 2 * n <? d then Ok 0
      else
        let b0 := Z.log2 n - Z.log2 d in
        let b :=
          if (if 0 <=? b0 then d * 2 ^ b0 <=? n else d <=? n * 2 ^ (- b0))
          then b0 else b0 - 1 in
        let k := 52 - b in
        let '(n', d') := if 0 <=? k then (n * 2 ^ k, d) else (n, d * 2 ^ (- k)) in
        let q := n' / d' in
        let r := n' mod d' in
        let q' :=
          if (d' <? 2 * r) || ((2 * r =? d') && Z.odd q) then q + 1 else q in
        if (1024 <=? b) || ((b =? 1023) && (q' =? 2 ^ 53))
        then Raised OverflowError
        else
          let t := if 0 <=? k then q' / 2 ^ k else q' * 2 ^ (- k) in
          Ok (if negative then - t else t)
  end.

(** The digits of [int(s)], with single underscores between digits: the
    value read and the number of digits. *)
Fixpoint int_digits (s : string) (acc count : Z) (after_digit : bool)
  : option (Z * Z) :=
  match s with
  | EmptyString => if after_digit then Some (acc, count) else None
  | String c r =>
      match digit_of c with
      | Some d => int_digits r (10 * acc + d) (count + 1) true
      | None =>
          if bool_decide (c = "_"%char) && after_digit
          then int_digits r acc count false
          else None
      end
  end.

(** The whitespace [int()] skips around an ASCII text: TAB, LF, VT, FF, CR
    and SPACE, not the separators FS, GS, RS and US. *)
Definition is_int_space (c : ascii) : bool :=
  match c with
  | "009" | "010" | "011" | "012" | "013" | " " => true
  | _ => false
  end%char.

Fixpoint int_lstrip (s : string) : string :=
  match s with
  | String c r => if is_int_space c then int_lstrip r else s
  | EmptyString => EmptyString
  end.

(** [int(s)] for an ASCII string: surrounding whitespace, a sign, decimal
    digits, at most [MAX_STR_DIGITS] of them. *)
Definition int_of_str (s : string) : outcome Z :=
  let s := String.rev (int_lstrip (String.rev (int_lstrip s))) in
  let '(negative, body) :=
    match s with
    | String "-" r => (true, r)
    | String "+" r => (false, r)
    | _ => (false, s)
    end in
  match int_digits body 0 0 false with
  | Some (z, count) =>
      if MAX_STR_DIGITS <? count then Raised ValueError
      else Ok (if negative : bool then - z else z)
  | None => Raised ValueError
  end.

(** [int(x)] *)
Definition int (x : json) : outcome Z :=
  match x with
  | JInt z => Ok z
  | JBool b => Ok (if b then 1 else 0)
  | JFloat f => float_to_int f
  | JStr s => int_of_str s
  | JNone | JList _ | JDict _ => Raised TypeError
  end.

(** [x[key]] for a string key. *)
Definition getitem (x : json) (key : string) : outcome json :=
  match x with
  | JDict d =>
      match dict_lookup d key with
      | Some v => Ok v
      | None => Raised KeyError
      end
  | _ => Raised TypeError
  end.

(** [x.get(key, default)] *)
Definition get (x : json) (key : string) (dflt : json) : outcome json :=
  match x with
  | JDict d => Ok (default dflt (dict_lookup d key))
  | _ => Raised AttributeError
  end.

End Json.
Import Json.

(** ** evaluate.py *)

Definition QA_CSV : string := "QA/CDKGQA.csv".

Definition SCORE_LABELS : gmap Z string :=
  list_to_map
    [(1, "no_answer"); (2, "wrong"); (3, "partial"); (4, "acceptable");
     (5, "correct")].

(** One entry of the list [load_questions] returns. *)
Record question_row :=
  { q_id : Z; q_question : string; q_baseline : string }.

(** [row.get(key, "").strip()] *)
Definition row_get_strip (row : csv_row) (key : string) : outcome string :=
  match row !! key with
  | None => Ok (strip "")
  | Some (Some cell) => Ok (strip cell)
  | Some None => Raised AttributeError
  end.

(** The loop of [load_questions] over [enumerate(reader, start=i)]. *)
Fixpoint load_rows (reader : list csv_row) (i : Z)
    (questions : list question_row) : outcome (list question_row) :=
  match reader with
  | [] => Ok questions
  | row :: rest =>
      question ← row_get_strip row "Question";
      baseline ← row_get_strip row "Baseline answer";
      load_rows rest (i + 1)
        (if decide (question = "") then questions
         else questions ++ [ {| q_id := i; q_question := question;
                                q_baseline := baseline |} ])
  end.

Definition load_questions (path : string) : prog (list question_row) :=
  reader ← call (CsvDictReader path);
  lift (load_rows reader 1 []).

Definition judge_prompt (question baseline response : string) : string :=
  join NL
    [ "You are evaluating a RAG system's answer against a baseline (expected) answer.";
      "";
      "Score the system's answer on a scale of 1-5:";
      "1 = no_answer: The system returned nothing useful or said it doesn't know";
      "2 = wrong: The answer is factually incorrect or completely off-topic";
      "3 = partial: The answer addresses the question but is missing key information from the baseline";
      "4 = acceptable: The answer is mostly correct and useful, minor gaps acceptable";
      "5 = correct: The answer is accurate and covers the key points in the baseline";
      "";
      "QUESTION: " +:+ question;
      "";
      "BASELINE ANSWER: " +:+ baseline;
      "";
      "SYSTEM ANSWER: " +:+ response;
      "";
      "Respond with JSON only: {" +:+ DQ +:+ "score" +:+ DQ +:+ ": <1-5>, "
        +:+ DQ +:+ "reasoning" +:+ DQ +:+ ": " +:+ DQ +:+ "<one sentence>"
        +:+ DQ +:+ "}" ].

(** The body of the [try] block of [judge_response]. *)
Definition parse_judge_json (text : string) : outcome (Z * json) :=
  parsed ← loads text;
  raw_score ← getitem parsed "score";
  score ← int raw_score;
  reasoning ← get parsed "reasoning" (JStr "");
  mret (score, reasoning).

(** [except (json.JSONDecodeError, KeyError, ValueError)] *)
Definition judge_except_matches (e : exn) : bool :=
  match e with
  | JSONDecodeError | KeyError | ValueError => true
  | _ => false
  end.

(** The [for ch in result.text] loop: the first character that is a digit
    between 1 and 5. *)
Fixpoint first_score_digit (text : string) : option Z :=
  match text with
  | EmptyString => None
  | String ch rest =>
      match digit_of ch with
      | Some d =>
          if (1 <=? d) && (d <=? 5) then Some d else first_score_digit rest
      | None => first_score_digit rest
      end
  end.

(** What [judge_response] makes of the text the judge sent. *)
Definition judge_parse (text : string) : outcome (Z * json) :=
  match parse_judge_json text with
  | Ok result => Ok result
  | Raised e =>
      if judge_except_matches e then
        match first_score_digit text with
        | Some d => Ok (d, JStr text)
        | None => Ok (1, JStr ("Could not parse judge response: " +:+ text))
        end
      else Raised e
  end.

Definition judge_response (question baseline response : string)
  : prog (Z * json) :=
  let prompt := judge_prompt question baseline response in
  result_text ← call (GenerateContent prompt);
  lift (judge_parse result_text).

(** One entry of the list [run_evaluation] returns. *)
Record eval_record :=
  { r_id : Z; r_question : string; r_baseline : string; r_cypher : string;
    r_response : string; r_score : Z; r_label : string; r_reasoning : json;
    r_error : option string }.

(** Truth value of [error], which is [None] or a string. *)
Definition truthy (error : option string) : bool :=
  match error with
  | Some (String _ _) => true
  | _ => false
  end.

(** [error.splitlines()[-1]] *)
Definition last_line (error : string) : outcome string :=
  match last (splitlines error) with
  | Some line => Ok line
  | None => Raised IndexError
  end.

(** The body of the [for q in questions] loop of [run_evaluation], up to
    the record that is appended to [results]. *)
Definition evaluate_question (graph_rag : GraphRAG) (q : question_row)
  : prog eval_record :=
  let qid := q_id q in
  let question := q_question q in
  let baseline := q_baseline q in
  '(response, cypher, error) ←
    try_except
      (rag_result ← run graph_rag question;
       mret (rag_response rag_result, rag_cypher rag_result, None))
      (λ e, if is_Exception e
            then Some (error ← call (FormatExc e); mret ("", "", Some error))
            else None);
  '(score, reasoning) ←
    (if truthy error then
       line ← lift (last_line (default "" error));
       mret (1, JStr ("Exception: " +:+ line))
     else if bool_decide (response = "") || bool_decide (response = "N/A") then
       mret (1, JStr "No response returned")
     else judge_response question baseline response);
  let label := default "unknown" (SCORE_LABELS !! score) in
  mret {| r_id := qid; r_question := question; r_baseline := baseline;
          r_cypher := cypher; r_response := response; r_score := score;
          r_label := label; r_reasoning := reasoning; r_error := error |}.

Fixpoint evaluation_loop (graph_rag : GraphRAG) (questions : list question_row)
    (results : list eval_record) : prog (list eval_record) :=
  match questions with
  | [] => Ret results
  | q :: rest =>
      record ← evaluate_question graph_rag q;
      evaluation_loop graph_rag rest (results ++ [record])
  end.

(** [run_evaluation], up to the list of records it returns.  Of what it
    prints after the loop, the per-label table is [label_summary] of that
    list; the mean score, a float, and the optional dump of the records to a
    file are left out. *)
Definition run_evaluation : prog (list eval_record) :=
  questions ← load_questions QA_CSV;
  graph_rag ← GraphRAG_init;
  evaluation_loop graph_rag questions [].

(** [label_counts] after the loop over [results]. *)
Definition label_counts (results : list eval_record) : gmap string Z :=
  foldl
    (λ counts r,
       <[ r_label r := default 0 (counts !! r_label r) + 1 ]> counts)
    (list_to_map ((λ kv, (kv.2, 0)) <$> map_to_list SCORE_LABELS))
    results.

(** The rows of the printed summary: score value, label, count. *)
Definition label_summary (results : list eval_record)
  : list (Z * string * Z) :=
  (λ kv, (kv.1, kv.2, default 0 (label_counts results !! kv.2)))
    <$> sorted fst Z.ltb (map_to_list SCORE_LABELS).

(** ** Environments used in statements and examples *)

(** What a backend answers to the three introspection calls. *)
Record backend_schema :=
  { bs_nodes : list string;
    bs_rels : list rel_table;
    bs_info : string → list table_info_row }.

(** [h] answers every introspection call from [b], in any state. *)
Definition serves {W} (h : handler W) (b : backend_schema) : Prop :=
  ∀ w,
    (∃ w', h _ GetNodeTableNames w = (Ok (bs_nodes b), w'))
    ∧ (∃ w', h _ GetRelTableNames w = (Ok (bs_rels b), w'))
    ∧ (∀ stmt, ∃ w', h _ (ExecuteTableInfo stmt) w = (Ok (bs_info b stmt), w')).

(** The name and declared type of a [TABLE_INFO] row. *)
Definition ti_key (row : table_info_row) : string * string :=
  (ti_name row, ti_type row).

(** Two enumerations of one schema: the same tables and the same properties
    per table, in any order. *)
Definition same_schema (b1 b2 : backend_schema) : Prop :=
  bs_nodes b1 ≡ₚ bs_nodes b2
  ∧ bs_rels b1 ≡ₚ bs_rels b2
  ∧ ∀ stmt, ti_key <$> bs_info b1 stmt ≡ₚ ti_key <$> bs_info b2 stmt.

(** A world without state in which every call is answered by a fixed
    function of its arguments. *)
Record script :=
  { on_csv : string → outcome (list csv_row);
    on_schema : backend_schema;
    on_execute : string → outcome cursor;
    on_text2cypher : string → string → outcome (option string);
    on_answer : string → string → outcome string;
    on_judge : string → outcome string;
    on_format_exc : exn → outcome string }.

Definition scripted (s : script) : handler unit := λ R ev w,
  match ev in event R return outcome R * unit with
  | CsvDictReader path => (on_csv s path, w)
  | GetNodeTableNames => (Ok (bs_nodes (on_schema s)), w)
  | GetRelTableNames => (Ok (bs_rels (on_schema s)), w)
  | ExecuteTableInfo stmt => (Ok (bs_info (on_schema s) stmt), w)
  | Execute cypher => (on_execute s cypher, w)
  | RAGText2Cypher schema question => (on_text2cypher s schema question, w)
  | RAGAnswerQuestion question context => (on_answer s question context, w)
  | GenerateContent prompt => (on_judge s prompt, w)
  | FormatExc e => (on_format_exc s e, w)
  end.

(** Writes a text with single quotes standing for double quotes. *)
Fixpoint dq (s : string) : string :=
  match s with
  | String c r => String (if decide (c = "'"%char) then dquote else c) (dq r)
  | EmptyString => EmptyString
  end.

(** A small conference graph. *)
Definition demo_schema : backend_schema :=
  {| bs_nodes := ["Talk"; "Speaker"];
     bs_rels := [ {| rel_name := "GIVES_TALK"; rel_src := "Speaker";
                     rel_dst := "Talk" |} ];
     bs_info := λ stmt,
       if decide (stmt = table_info_stmt "Speaker") then
         [ {| ti_id := 0; ti_name := "name"; ti_type := "STRING" |} ]
       else if decide (stmt = table_info_stmt "Talk") then
         [ {| ti_id := 0; ti_name := "title"; ti_type := "STRING" |};
           {| ti_id := 1; ti_name := "id"; ti_type := "INT64" |} ]
       else [] |}.

(** The same graph, enumerated in another order. *)
Definition demo_schema' : backend_schema :=
  {| bs_nodes := ["Speaker"; "Talk"];
     bs_rels := bs_rels demo_schema;
     bs_info := λ stmt,
       if decide (stmt = table_info_stmt "Talk") then
         [ {| ti_id := 1; ti_name := "id"; ti_type := "INT64" |};
           {| ti_id := 0; ti_name := "title"; ti_type := "STRING" |} ]
       else bs_info demo_schema stmt |}.

Definition demo_rows : list csv_row :=
  [ {[ "Question" := Some "Who gave the keynote?";
       "Baseline answer" := Some "Jane Doe" ]};
    {[ "Question" := Some "Which talks mention RDF?";
       "Baseline answer" := Some "Two talks" ]} ].

Definition demo_traceback : string :=
  "Traceback (most recent call last):" +:+ NL
  +:+ "RuntimeError: Binder exception: no such table" +:+ NL.

(** A run in which every service answers; the judge answers with [verdict]. *)
Definition demo_script (verdict : outcome string) : script :=
  {| on_csv := λ _, Ok demo_rows;
     on_schema := demo_schema;
     on_execute := λ _,
       Ok {| get_column_names := ["s.name"];
             cursor_rows := [[VStr "Jane Doe"]] |};
     on_text2cypher := λ _ _, Ok (Some "MATCH (s:Speaker) RETURN s.name");
     on_answer := λ _ _, Ok "Jane Doe gave the keynote.";
     on_judge := λ _, verdict;
     on_format_exc := λ _, Ok demo_traceback |}.

(** The same run with a backend that rejects every query. *)
Definition failing_backend_script : script :=
  {| on_csv := on_csv (demo_script (Ok ""));
     on_schema := demo_schema;
     on_execute := λ _, Raised (ExceptionOther "RuntimeError");
     on_text2cypher := on_text2cypher (demo_script (Ok ""));
     on_answer := on_answer (demo_script (Ok ""));
     on_judge := λ _, Ok (dq "{'score': 5, 'reasoning': 'matches'}");
     on_format_exc := on_format_exc (demo_script (Ok "")) |}.

(** The same run with a generation service that finds no query. *)
Definition no_query_script : script :=
  {| on_csv := on_csv (demo_script (Ok ""));
     on_schema := demo_schema;
     on_execute := on_execute (demo_script (Ok ""));
     on_text2cypher := λ _ _, Ok None;
     on_answer := on_answer (demo_script (Ok ""));
     on_judge := on_judge (demo_script (Ok ""));
     on_format_exc := on_format_exc (demo_script (Ok "")) |}.

Definition demo_rag : GraphRAG := {| baml_schema := "schema" |}.

Definition demo_question : question_row :=
  {| q_id := 1; q_question := "Who gave the keynote?";
     q_baseline := "Jane Doe" |}.

(** A dataset whose first row has a blank question. *)
Definition gap_rows : list csv_row :=
  [ {[ "Question" := Some "  "; "Baseline answer" := Some "unused" ]};
    {[ "Question" := Some " Who gave the keynote? ";
       "Baseline answer" := Some "Jane Doe" ]} ].

(** The demo run over another dataset. *)
Definition csv_script (rows : list csv_row) : script :=
  {| on_csv := λ _, Ok rows;
     on_schema := demo_schema;
     on_execute := on_execute (demo_script (Ok ""));
     on_text2cypher := on_text2cypher (demo_script (Ok ""));
     on_answer := on_answer (demo_script (Ok ""));
     on_judge := on_judge (demo_script (Ok ""));
     on_format_exc := on_format_exc (demo_script (Ok "")) |}.

(** The demo run against another enumeration of the schema. *)
Definition schema_script (b : backend_schema) : script :=
  {| on_csv := on_csv (demo_script (Ok ""));
     on_schema := b;
     on_execute := on_execute (demo_script (Ok ""));
     on_text2cypher := on_text2cypher (demo_script (Ok ""));
     on_answer := on_answer (demo_script (Ok ""));
     on_judge := on_judge (demo_script (Ok ""));
     on_format_exc := on_format_exc (demo_script (Ok "")) |}.

(** The demo run with a backend that answers [response] to every query. *)
Definition cursor_script (response : cursor) : script :=
  {| on_csv := on_csv (demo_script (Ok ""));
     on_schema := demo_schema;
     on_execute := λ _, Ok response;
     on_text2cypher := on_text2cypher (demo_script (Ok ""));
     on_answer := on_answer (demo_script (Ok ""));
     on_judge := on_judge (demo_script (Ok ""));
     on_format_exc := on_format_exc (demo_script (Ok "")) |}.

(** What the backend answers to a query that returns whole nodes: every
    cell is a dict. *)
Definition node_cursor : cursor :=
  {| get_column_names := ["s"];
     cursor_rows :=
       [[VUnhashable "{'_label': 'Speaker', 'name': 'Jane Doe'}"]] |}.

(** A result in which the first row comes back a second time. *)
Definition repeated_cursor : cursor :=
  {| get_column_names := ["letter"; "rank"];
     cursor_rows :=
       [[VStr "a"; VInt 1]; [VStr "b"; VInt 2]; [VStr "a"; VInt 1]] |}.

Definition people_cursor : cursor :=
  {| get_column_names := ["name"; "age"];
     cursor_rows := [[VStr "Alice"; VInt 30]; [VStr "Bob"; VNone]] |}.

(** What [load_questions] returns for [gap_rows]. *)
Definition gap_questions : list question_row :=
  [ {| q_id := 2; q_question := "Who gave the keynote?";
       q_baseline := "Jane Doe" |} ].

(** The demo run against a catalog whose [TABLE_INFO] call fails. *)
Definition broken_catalog : handler unit := λ R ev w,
  match ev in event R return outcome R * unit with
  | ExecuteTableInfo _ => (Raised (ExceptionOther "RuntimeError"), w)
  | ev' => scripted (demo_script (Ok "")) _ ev' w
  end.

(** The demo run, interrupted from the keyboard during query generation. *)
Definition interrupted_script : script :=
  {| on_csv := on_csv (demo_script (Ok ""));
     on_schema := demo_schema;
     on_execute := on_execute (demo_script (Ok ""));
     on_text2cypher := λ _ _, Raised (BaseExceptionOther "KeyboardInterrupt");
     on_answer := on_answer (demo_script (Ok ""));
     on_judge := on_judge (demo_script (Ok ""));
     on_format_exc := on_format_exc (demo_script (Ok "")) |}.

(** A dataset with a row that ends before its "Baseline answer" field. *)
Definition short_rows : list csv_row :=
  [ {[ "Question" := Some "Who gave the keynote?";
       "Baseline answer" := None ]} ].

(** A dataset whose header names neither column. *)
Definition headerless_rows : list csv_row :=
  [ {[ "Q" := Some "Who gave the keynote?"; "A" := Some "Jane Doe" ]} ].

(** What the demo run records for [demo_question] when the judge answers
    with a score of 4. *)
Definition demo_verdict : string := dq "{'score': 4, 'reasoning': 'close'}".

Definition demo_record : eval_record :=
  {| r_id := 1; r_question := "Who gave the keynote?";
     r_baseline := "Jane Doe";
     r_cypher := "MATCH (s:Speaker) RETURN s.name";
     r_response := "Jane Doe gave the keynote."; r_score := 4;
     r_label := "acceptable"; r_reasoning := JStr "close";
     r_error := None |}.

(** ** Notions used in the statements *)

Global Instance value_eq_dec : EqDecision value.
Proof. solve_decision. Defined.

(** A row whose tuple can be hashed: no cell of it is a list or a dict. *)
Definition hashable_row (row : list value) : Prop :=
  forallb hashable row = true.

(** First occurrences, as the specification words them: the rows of
    [items] that equal no row before them, in the order of [items]. *)
Definition first_occurrences (items : list (list value))
  : list (list value) :=
  omap id
    (imap (λ i item,
             if existsb (tuple_eqb item) (take i items)
             then None else Some item)
       items).

(** The representative of a value among the values equal to it: a [bool]
    is the [int] it equals. *)
Definition canon (v : value) : value :=
  match v with
  | VBool b => VInt (if b then 1 else 0)
  | _ => v
  end.

(** A column name with the value under it, as a multi-column row shows
    them. *)
Definition pair_text (cv : string * value) : string :=
  cv.1 +:+ ": " +:+ str cv.2.

(** A strict total order, given by its [<] test. *)
Class StrictTotal {K : Type} (lt : K → K → bool) : Prop :=
  { lt_irrefl a : lt a a = false;
    lt_trans a b c : lt a b = true → lt b c = true → lt a c = true;
    lt_connex a b : lt a b = false → lt b a = false → a = b }.

(** "Not after", for elements compared through their keys. *)
Definition key_le {A K : Type} (key : A → K) (lt : K → K → bool)
    (x y : A) : Prop :=
  lt (key y) (key x) = false.

(** The schema dictionary that [get_schema_dict] builds from the answers
    [b] of the backend. *)
Definition node_schema_of (b : backend_schema) (node : string)
  : node_schema :=
  {| node_label := node;
     node_properties := table_properties (bs_info b (table_info_stmt node)) |}.

Definition edge_schema_of (b : backend_schema) (rel : rel_table)
  : edge_schema :=
  {| edge_label := rel_name rel; edge_src := rel_src rel;
     edge_dst := rel_dst rel;
     edge_properties :=
       table_properties (bs_info b (table_info_stmt (rel_name rel))) |}.

Definition schema_dict_of (b : backend_schema) : schema_dict :=
  {| schema_nodes := node_schema_of b <$> sorted id str_lt (bs_nodes b);
     schema_edges :=
       edge_schema_of b <$> sorted rel_key triple_lt (bs_rels b) |}.

(** [q] is the question that [load_questions] makes of [row] when the row
    is numbered [i]. *)
Definition row_question (i : Z) (row : csv_row) (q : question_row) : Prop :=
  q_id q = i
  ∧ row_get_strip row "Question" = Ok (q_question q)
  ∧ q_question q ≠ ""
  ∧ row_get_strip row "Baseline answer" = Ok (q_baseline q).

(** A call that the evaluation of a question may make with the pipeline
    [graph_rag]: a query generation on its cached schema text, a query
    execution, an answer synthesis, a judge request, a traceback. *)
Definition loop_call (graph_rag : GraphRAG) (c : made) : Prop :=
  match c with
  | Made (RAGText2Cypher schema _) => schema = baml_schema graph_rag
  | Made (Execute _) | Made (RAGAnswerQuestion _ _)
  | Made (GenerateContent _) | Made (FormatExc _) => True
  | _ => False
  end.

(** How many records carry [label]. *)
Definition count_label (results : list eval_record) (label : string) : Z :=
  Z.of_nat (length (filter (λ r, r_label r = label) results)).

(** * Properties *)

(** ** Running programs *)

Section exec.
Context {W : Type} (h : handler W).

Lemma exec_ret {A} (a : A) w : exec h (mret a) w = (Ok a, w, []).
Proof. done. Qed.

Lemma exec_call {R} (ev : event R) w :
  exec h (call ev) w = ((h _ ev w).1, (h _ ev w).2, [Made ev]).
Proof. simpl. by destruct (h R ev w) as [[r|e] w1]. Qed.

Lemma exec_lift {A} (o : outcome A) w : exec h (lift o) w = (o, w, []).
Proof. by destruct o. Qed.

Lemma exec_bind {A B} (p : prog A) (f : A → prog B) w :
  exec h (p ≫= f) w =
    match exec h p w with
    | (Ok a, w1, t1) =>
        let '(r, w2, t2) := exec h (f a) w1 in (r, w2, t1 ++ t2)
    | (Raised e, w1, t1) => (Raised e, w1, t1)
    end.
Proof.
  revert w. induction p as [a|e|R ev k IH]; intros w; simpl.
  - by destruct (exec h (f a) w) as [[r w2] t2].
  - done.
  - destruct (h R ev w) as [o w1].
    change (bind (k o) f) with (k o ≫= f). rewrite IH.
    destruct (exec h (k o) w1) as [[[a|e] w2] t1]; [|done].
    by destruct (exec h (f a) w2) as [[r w3] t2].
Qed.

Lemma exec_try_except {A} (p : prog A) (c : exn → option (prog A)) w :
  exec h (try_except p c) w =
    match exec h p w with
    | (Ok a, w1, t1) => (Ok a, w1, t1)
    | (Raised e, w1, t1) =>
        match c e with
        | Some q => let '(r, w2, t2) := exec h q w1 in (r, w2, t1 ++ t2)
        | None => (Raised e, w1, t1)
        end
    end.
Proof.
  revert w. induction p as [a|e|R ev k IH]; intros w; simpl.
  - done.
  - destruct (c e) as [q|]; [|done].
    by destruct (exec h q w) as [[r w2] t2].
  - destruct (h R ev w) as [o w1]. rewrite IH.
    destruct (exec h (k o) w1) as [[[a|e] w2] t1]; [done|].
    destruct (c e) as [q|]; [|done].
    by destruct (exec h q w2) as [[r w3] t2].
Qed.
End exec.

Local Arguments exec : simpl never.
Local Arguments bind : simpl never.
Local Arguments call : simpl never.
Local Arguments lift : simpl never.

(** ** The pipeline *)

(** C7.  When the query-generation service returns no query, [run] returns
    the outcome whose query and answer fields are both "N/A", and the only
    call it made is the one to the generation service: the graph backend is
    not queried and no answer is synthesised. *)
Theorem run_without_query {W} (h : handler W) (w w' : W) (self : GraphRAG)
    (question : string) :
  h _ (RAGText2Cypher (baml_schema self) question) w = (Ok None, w') →
  exec h (run self question) w =
    (Ok {| rag_question := question; rag_cypher := "N/A";
           rag_response := "N/A" |},
     w', [Made (RAGText2Cypher (baml_schema self) question)]).
Proof.
  intros Hnone. unfold run. by rewrite exec_bind, exec_call, Hnone.
Qed.

(** Unfolds the run of a program call by call; the answers of the handler
    are then case-split or rewritten by hand. *)
Ltac exec_steps :=
  cbn [fst snd app];
  repeat (first [rewrite exec_bind | rewrite exec_call | rewrite exec_lift
                | rewrite exec_ret | rewrite exec_try_except];
          cbn [fst snd app]).

(** [run] never calls the judge. *)
Lemma run_no_judge_call {W} (h : handler W) w self question :
  Forall (λ c, is_GenerateContent c = false) (exec h (run self question) w).2.
Proof.
  unfold run, execute_query. exec_steps.
  destruct (h _ (RAGText2Cypher (baml_schema self) question) w)
    as [[[query|]|e] w1]; exec_steps; [|by repeat constructor..].
  destruct (h _ (Execute query) w1) as [[response|e] w2]; exec_steps;
    [|by repeat constructor].
  destruct (collect_rows _ _ _) as [rows|e]; exec_steps;
    [|by repeat constructor].
  destruct (serialize_rows _ _) as [result_str|e]; exec_steps;
    [|by repeat constructor].
  destruct (h _ (RAGAnswerQuestion _ _) w2) as [[r|e] w3]; exec_steps;
    by repeat constructor.
Qed.

(** ** The evaluation loop *)

(** A question that yields a record is followed by the rest of the loop,
    with the record appended to the results. *)
Lemma evaluation_loop_cons {W} (h : handler W) w graph_rag q rest results
    record w1 t1 :
  exec h (evaluate_question graph_rag q) w = (Ok record, w1, t1) →
  exec h (evaluation_loop graph_rag (q :: rest) results) w =
    (let '(o, w2, t2) :=
       exec h (evaluation_loop graph_rag rest (results ++ [record])) w1 in
     (o, w2, t1 ++ t2)).
Proof.
  intros Hq. cbn [evaluation_loop]. by rewrite exec_bind, Hq.
Qed.

(** C8.  If the pipeline returns normally with a response that is empty or
    "N/A", the record of that question has score 1, label no_answer and
    reasoning "No response returned"; the calls made for the question are
    those of the pipeline alone, none of them to the judge, and the loop goes
    on with the record appended. *)
Theorem empty_response_scores_without_judge {W} (h : handler W) w w1 t1
    graph_rag q result rest results :
  exec h (run graph_rag (q_question q)) w = (Ok result, w1, t1) →
  rag_response result = "" ∨ rag_response result = "N/A" →
  let record :=
    {| r_id := q_id q; r_question := q_question q;
       r_baseline := q_baseline q; r_cypher := rag_cypher result;
       r_response := rag_response result; r_score := 1;
       r_label := "no_answer"; r_reasoning := JStr "No response returned";
       r_error := None |} in
  exec h (evaluate_question graph_rag q) w = (Ok record, w1, t1)
  ∧ Forall (λ c, is_GenerateContent c = false) t1
  ∧ exec h (evaluation_loop graph_rag (q :: rest) results) w =
      (let '(o, w2, t2) :=
         exec h (evaluation_loop graph_rag rest (results ++ [record])) w1 in
       (o, w2, t1 ++ t2)).
Proof.
  intros Hrun Hresp record.
  assert (exec h (evaluate_question graph_rag q) w = (Ok record, w1, t1))
    as Hq.
  { unfold evaluate_question. exec_steps. rewrite Hrun. exec_steps.
    cbn [truthy].
    assert (bool_decide (rag_response result = "")
            || bool_decide (rag_response result = "N/A") = true) as ->.
    { destruct Hresp as [-> | ->]; done. }
    exec_steps. rewrite !app_nil_r. done. }
  split_and!; [done| |by apply evaluation_loop_cons].
  pose proof (run_no_judge_call h w graph_rag (q_question q)) as Hno.
  by rewrite Hrun in Hno.
Qed.

(** A text that is not empty has a last line. *)
Lemma splitlines_go_nonempty cur s :
  cur ≠ "" ∨ s ≠ "" → splitlines_go cur s ≠ [].
Proof.
  revert cur. induction s as [|c r IH]; intros cur Hne; cbn [splitlines_go].
  - destruct Hne as [Hne|Hne]; [|done]. by case_decide.
  - destruct (is_linebreak c); [by repeat case_match|].
    apply IH. by left.
Qed.

Lemma last_line_nonempty tb :
  tb ≠ "" → ∃ line, last (splitlines tb) = Some line.
Proof.
  intros Hne. pose proof (splitlines_go_nonempty "" tb (or_intror Hne)) as Hl.
  unfold splitlines. destruct (last (splitlines_go "" tb)) as [line|] eqn:E.
  - by exists line.
  - by apply last_None in E.
Qed.

(** C1, as amended.  An [Exception] raised by the pipeline invocation does
    not end the run: with the traceback [tb] rendered for it, the question
    gets the record with empty query and response, score 1, label no_answer
    and reasoning "Exception: " followed by the last line of [tb], and the
    loop goes on with the next question. *)
Theorem pipeline_exception_is_downgraded {W} (h : handler W) w w1 w2 t1
    graph_rag q e tb rest results :
  exec h (run graph_rag (q_question q)) w = (Raised e, w1, t1) →
  is_Exception e = true →
  h _ (FormatExc e) w1 = (Ok tb, w2) →
  tb ≠ "" →
  ∃ line, last (splitlines tb) = Some line ∧
    let record :=
      {| r_id := q_id q; r_question := q_question q;
         r_baseline := q_baseline q; r_cypher := ""; r_response := "";
         r_score := 1; r_label := "no_answer";
         r_reasoning := JStr ("Exception: " +:+ line);
         r_error := Some tb |} in
    exec h (evaluate_question graph_rag q) w
      = (Ok record, w2, t1 ++ [Made (FormatExc e)])
    ∧ exec h (evaluation_loop graph_rag (q :: rest) results) w =
        (let '(o, w3, t3) :=
           exec h (evaluation_loop graph_rag rest (results ++ [record])) w2 in
         (o, w3, (t1 ++ [Made (FormatExc e)]) ++ t3)).
Proof.
  intros Hrun Hexc Hfmt Hne.
  destruct (last_line_nonempty tb Hne) as [line Hline].
  exists line. split; [done|]. intros record.
  assert (exec h (evaluate_question graph_rag q) w
          = (Ok record, w2, t1 ++ [Made (FormatExc e)])) as Hq.
  { unfold evaluate_question. exec_steps. rewrite Hrun. exec_steps.
    rewrite Hexc. exec_steps. rewrite Hfmt. exec_steps.
    assert (truthy (Some tb) = true) as -> by by destruct tb.
    cbn [default from_option id]. exec_steps. unfold last_line.
    rewrite Hline. exec_steps.
    by rewrite !app_nil_r. }
  split; [done|]. by apply evaluation_loop_cons.
Qed.

(** C1, as stated, fails: the judge is called outside the [try] block.  In
    a run where the pipeline answers the first question and the judge
    service then raises, no record is produced and [run_evaluation] itself
    raises the judge's error. *)
Lemma judge_error_aborts_run :
  (exec (scripted (demo_script (Raised (ExceptionOther "ServerError"))))
     (run demo_rag (q_question demo_question)) ()).1.1
    = Ok {| rag_question := "Who gave the keynote?";
            rag_cypher := "MATCH (s:Speaker) RETURN s.name";
            rag_response := "Jane Doe gave the keynote." |}
  ∧ (exec (scripted (demo_script (Raised (ExceptionOther "ServerError"))))
       run_evaluation ()).1.1
    = Raised (ExceptionOther "ServerError").
Proof. split; vm_compute; reflexivity. Qed.

(** C2 at a failing input.  The judge answers every question with the
    well-formed object whose score is 7: each record carries score 7 and the
    label "unknown", while the printed summary lists the five labels, each
    with count 0. *)
Theorem out_of_range_score_is_recorded :
  let results :=
    (exec (scripted (demo_script
                       (Ok (dq "{'score': 7, 'reasoning': 'great'}"))))
       run_evaluation ()).1.1 in
  fmap (M := outcome)
    (fmap (M := list)
       (λ r, (r_id r, r_score r, r_label r, r_reasoning r, r_error r)))
    results
    = Ok [(1, 7, "unknown", JStr "great", None);
          (2, 7, "unknown", JStr "great", None)]
  ∧ fmap (M := outcome) label_summary results
    = Ok [(1, "no_answer", 0); (2, "wrong", 0); (3, "partial", 0);
          (4, "acceptable", 0); (5, "correct", 0)].
Proof. split; vm_compute; reflexivity. Qed.

(** C5 at a failing input.  The judge answers with the bare number 4, which
    is valid JSON but not an object: subscripting it raises [TypeError],
    which the [except] clause does not list, so [judge_response] raises. *)
Theorem judge_response_raises_on_bare_number {W} (h : handler W) w w'
    question baseline response :
  h _ (GenerateContent (judge_prompt question baseline response)) w
    = (Ok "4", w') →
  exec h (judge_response question baseline response) w
    = (Raised TypeError, w',
       [Made (GenerateContent (judge_prompt question baseline response))]).
Proof.
  intros Hjudge. unfold judge_response. exec_steps. rewrite Hjudge.
  exec_steps. done.
Qed.

(** ** The query executor *)

(** Equality of values is equality of their representatives, hence an
    equivalence. *)
Lemma value_eqb_canon a b : value_eqb a b = true ↔ canon a = canon b.
Proof.
  destruct a as [|[]|x|s|s], b as [|[]|y|t|t]; cbn [value_eqb canon];
    rewrite ?bool_decide_eq_true; naive_solver.
Qed.

Lemma tuple_eqb_canon r s : tuple_eqb r s = true ↔ canon <$> r = canon <$> s.
Proof.
  revert s. induction r as [|a r IH]; intros [|b s];
    cbn [tuple_eqb fmap list_fmap]; [done..|].
  rewrite andb_true_iff, value_eqb_canon, IH.
  split; [intros [H1 H2]; by f_equal | by intros [= H1 H2]].
Qed.


Lemma tuple_eqb_sym r s : tuple_eqb r s = tuple_eqb s r.
Proof.
  apply eq_true_iff_eq. rewrite !tuple_eqb_canon. naive_solver.
Qed.

Lemma tuple_eqb_trans r s t :
  tuple_eqb r s = true → tuple_eqb s t = true → tuple_eqb r t = true.
Proof. rewrite !tuple_eqb_canon. congruence. Qed.

Lemma existsb_tuple_eqb_proper r s l :
  tuple_eqb r s = true →
  existsb (tuple_eqb r) l = existsb (tuple_eqb s) l.
Proof.
  intros Hrs. induction l as [|x l IH]; cbn [existsb]; [done|].
  rewrite IH. f_equal. apply eq_true_iff_eq. split; intros H.
  - apply tuple_eqb_trans with r; [by rewrite tuple_eqb_sym|done].
  - by apply tuple_eqb_trans with s.
Qed.

(** Hashing a row raises [TypeError] or nothing. *)
Lemma hash_tuple_Ok key : hash_tuple key = Ok () ↔ hashable_row key.
Proof. unfold hash_tuple, hashable_row. by destruct (forallb hashable key). Qed.

Lemma hash_tuple_Raised key e :
  hash_tuple key = Raised e ↔ e = TypeError ∧ ¬ hashable_row key.
Proof.
  unfold hash_tuple, hashable_row. destruct (forallb hashable key).
  - split; [done|]. by intros [_ []].
  - split; [by intros [= <-]|by intros [-> _]].
Qed.

(** The set [seen] stands for the rows read so far: the next row is hashed,
    and is a duplicate exactly when it equals one of them. *)
Lemma collect_rows_snoc_gen items item seen rows :
  collect_rows (items ++ [item]) seen rows =
    kept ← collect_rows items seen rows;
    _ ← hash_tuple item;
    mret (if existsb (tuple_eqb item) seen || existsb (tuple_eqb item) items
          then kept else kept ++ [item]).
Proof.
  revert seen rows. induction items as [|x items IH]; intros seen rows.
  - cbn [app collect_rows existsb mbind outcome_bind]. rewrite orb_false_r.
    destruct (hash_tuple item); [|done]. by destruct (existsb _ seen).
  - cbn [app collect_rows existsb].
    destruct (hash_tuple x); cbn [mbind outcome_bind]; [|done].
    destruct (existsb (tuple_eqb x) seen) eqn:Hx; rewrite IH.
    + destruct (tuple_eqb item x) eqn:Hix; [|done].
      by rewrite (existsb_tuple_eqb_proper item x seen Hix), Hx.
    + cbn [existsb].
      by rewrite (orb_comm (tuple_eqb item x)), <-orb_assoc.
Qed.

Lemma collect_rows_snoc items item :
  collect_rows (items ++ [item]) [] [] =
    kept ← collect_rows items [] [];
    _ ← hash_tuple item;
    mret (if existsb (tuple_eqb item) items then kept else kept ++ [item]).
Proof. by rewrite collect_rows_snoc_gen. Qed.

(** What [collect_rows_snoc] says of a loop that returned. *)
Lemma collect_rows_snoc_Ok items item rows :
  collect_rows (items ++ [item]) [] [] = Ok rows →
  ∃ kept,
    collect_rows items [] [] = Ok kept
    ∧ hashable_row item
    ∧ rows = if existsb (tuple_eqb item) items then kept else kept ++ [item].
Proof.
  rewrite collect_rows_snoc.
  destruct (collect_rows items [] []) as [kept|?];
    cbn [mbind outcome_bind]; [|done].
  destruct (hash_tuple item) as [[]|?] eqn:Hhash;
    cbn [mbind outcome_bind mret outcome_ret]; [|done].
  intros [= <-]. exists kept. by apply hash_tuple_Ok in Hhash.
Qed.

(** The loop returns exactly when every row can be hashed, and raises
    nothing but [TypeError]. *)
Lemma collect_rows_Ok items :
  (∃ rows, collect_rows items [] [] = Ok rows) ↔ Forall hashable_row items.
Proof.
  induction items as [|item items IH] using rev_ind.
  { split; [by constructor|by exists []]. }
  rewrite Forall_app, Forall_singleton, <-IH. split.
  - intros [rows (kept & Hkept & Hitem & _)%collect_rows_snoc_Ok]. eauto.
  - intros [[kept Hkept] Hitem%hash_tuple_Ok].
    rewrite collect_rows_snoc, Hkept, Hitem. by eexists.
Qed.

Lemma collect_rows_Raised items e :
  collect_rows items [] [] = Raised e
  ↔ e = TypeError ∧ Exists (λ item, ¬ hashable_row item) items.
Proof.
  revert e. induction items as [|item items IH] using rev_ind; intros e.
  { split; [done|]. by intros [_ ?%Exists_nil]. }
  rewrite collect_rows_snoc, Exists_app, Exists_cons, Exists_nil.
  destruct (collect_rows items [] []) as [kept|e'] eqn:Hkept;
    cbn [mbind outcome_bind].
  - assert (¬ Exists (λ item, ¬ hashable_row item) items) as Hnone.
    { intros Hex. discriminate (proj2 (IH TypeError) (conj eq_refl Hex)). }
    destruct (hash_tuple item) as [[]|e''] eqn:Hhash;
      cbn [mbind outcome_bind mret outcome_ret].
    + apply hash_tuple_Ok in Hhash. split; [done|]. intros [_ ?]. tauto.
    + apply hash_tuple_Raised in Hhash as [-> Hitem]. split.
      * intros [= <-]. tauto.
      * by intros [-> _].
  - destruct (proj1 (IH e') eq_refl) as [-> Hex]. split.
    + intros [= <-]. tauto.
    + by intros [-> _].
Qed.

Lemma collect_rows_sublist items rows :
  collect_rows items [] [] = Ok rows → rows `sublist_of` items.
Proof.
  revert rows. induction items as [|item items IH] using rev_ind;
    intros rows.
  { by intros [= <-]. }
  intros (kept & Hkept%IH & _ & ->)%collect_rows_snoc_Ok.
  destruct (existsb _ items).
  - by apply sublist_inserts_r.
  - by apply sublist_app.
Qed.

Lemma existsb_tuple_eqb_false item items row :
  existsb (tuple_eqb item) items = false → row ∈ items →
  tuple_eqb item row = false.
Proof.
  intros Hex Hin. apply not_true_is_false. intros Heq.
  apply not_true_iff_false in Hex. apply Hex, existsb_exists.
  exists row. by rewrite <-list_elem_of_In.
Qed.


Lemma collect_rows_distinct items rows (i j : nat) r s :
  collect_rows items [] [] = Ok rows →
  (i < j)%nat → rows !! i = Some r → rows !! j = Some s →
  tuple_eqb r s = false.
Proof.
  revert rows i j r s. induction items as [|x items IH] using rev_ind;
    intros rows i j r s Hrows Hij.
  { injection Hrows as <-. done. }
  apply collect_rows_snoc_Ok in Hrows as (kept & Hkept & _ & ->).
  destruct (existsb (tuple_eqb x) items) eqn:Hx; [by apply (IH kept)|].
  intros Hi Hj.
  apply lookup_app_Some in Hj as [Hj|[Hlen Hj]].
  - rewrite lookup_app_l in Hi by (apply lookup_lt_Some in Hj; lia).
    by apply (IH kept i j).
  - apply list_lookup_singleton_Some in Hj as [Hj0 ->].
    rewrite lookup_app_l in Hi by lia.
    rewrite tuple_eqb_sym. apply existsb_tuple_eqb_false with items; [done|].
    eapply elem_of_sublist; [|by apply collect_rows_sublist].
    by eapply list_elem_of_lookup_2.
Qed.

(** C4.  A result in which a row holds a list or a dict (a LIST, STRUCT,
    MAP, NODE or REL value) is not deduplicated: looking the tuple of that
    row up in the set of rows seen raises [TypeError], which leaves
    [execute_query] after its one call to the backend, with no answer. *)
Theorem execute_query_raises_on_unhashable_row {W} (h : handler W) w w'
    question cypher response item :
  h _ (Execute cypher) w = (Ok response, w') →
  item ∈ cursor_rows response →
  ¬ hashable_row item →
  exec h (execute_query question cypher) w
  = (Raised TypeError, w', [Made (Execute cypher)]).
Proof.
  intros Hexec Hin Hitem. unfold execute_query. exec_steps.
  rewrite Hexec. exec_steps.
  assert (collect_rows (cursor_rows response) [] [] = Raised TypeError)
    as ->; [|by exec_steps].
  apply collect_rows_Raised. split; [done|].
  apply Exists_exists. by exists item.
Qed.

Lemma first_cells_single rows :
  Forall (λ row : list value, length row = 1%nat) rows →
  first_cells rows = Ok (str <$> concat rows).
Proof.
  induction 1 as [|row rows Hrow _ IH]; [done|].
  destruct row as [|v [|??]]; try done.
  cbn [first_cells first_cell]. cbn. rewrite IH. done.
Qed.

Lemma row_pairs_filter columns row :
  row_pairs columns row
    = pair_text <$> filter (λ cv, cv.2 ≠ VNone) (zip columns row).
Proof.
  revert row. induction columns as [|col columns IH]; intros [|val row];
    [done..|].
  cbn [row_pairs zip zip_with]. rewrite IH.
  destruct val; [by rewrite filter_cons_False by (by intros [])|..];
    by rewrite filter_cons_True.
Qed.

Lemma Forall_collect_rows (P : list value → Prop) items rows :
  collect_rows items [] [] = Ok rows → Forall P items → Forall P rows.
Proof.
  intros Hrows. rewrite !Forall_forall. intros HP row Hrow. apply HP.
  eapply elem_of_sublist; [done|by apply collect_rows_sublist].
Qed.

(** C3.  [execute_query] answers with the serialisation of the rows kept:
    the empty string when there is none; with one column, the values joined
    with ", "; with more than one column, one line per row holding the
    "col: value" pairs of its cells that are not [None], joined with " | ".
    The two results named by the specification serialise as it says. *)
Theorem execute_query_serialization :
  (∀ W (h : handler W) w w' question cypher response rows,
     h _ (Execute cypher) w = (Ok response, w') →
     collect_rows (cursor_rows response) [] [] = Ok rows →
     let columns := get_column_names response in
     Forall (λ row, length row = length columns) (cursor_rows response) →
     ∃ result_str,
       exec h (execute_query question cypher) w
         = (Ok {| answer_question := question; answer := result_str |},
            w', [Made (Execute cypher)])
       ∧ (rows = [] → result_str = "")
       ∧ (length columns = 1%nat →
          result_str = join ", " (str <$> concat rows))
       ∧ ((1 < length columns)%nat →
          result_str =
            join NL
              ((λ row, join " | "
                         (pair_text
                            <$> filter (λ cv, cv.2 ≠ VNone)
                                  (zip columns row)))
                 <$> rows)))
  ∧ (collect_rows [[VInt 1]; [VInt 2]; [VInt 3]] [] []
       ≫= serialize_rows ["n"])
    = Ok "1, 2, 3"
  ∧ (collect_rows [[VStr "Alice"; VInt 30]; [VStr "Bob"; VNone]] [] []
       ≫= serialize_rows ["name"; "age"])
    = Ok ("name: Alice | age: 30" +:+ NL +:+ "name: Bob").
Proof.
  split_and!; [|reflexivity..].
  intros W h w w' question cypher response rows Hexec Hrows columns Hwf.
  apply (Forall_collect_rows _ _ _ Hrows) in Hwf.
  unfold execute_query. exec_steps. rewrite Hexec. exec_steps.
  rewrite Hrows. exec_steps. fold columns. unfold serialize_rows.
  destruct rows as [|row rows'] eqn:Hrows'.
  { exec_steps. eexists. split; [done|]. split_and!; [done|done|].
    by intros _. }
  rewrite <-Hrows' in *. clear Hrows' row rows'.
  destruct (decide (length columns = 1%nat)) as [Hone|Hmany].
  - rewrite Hone in Hwf. rewrite (first_cells_single rows Hwf).
    cbn [mbind outcome_bind mret outcome_ret]. exec_steps.
    eexists. split; [done|]. split_and!; [|done|lia].
    intros ->. done.
  - exec_steps. eexists. split; [done|]. split_and!; [|done|].
    + intros ->. done.
    + intros _. f_equal. apply list_fmap_ext. intros _ row _.
      by rewrite row_pairs_filter.
Qed.





(** ** The schema introspector *)

(** [<] on strings is the strict part of the total order [String.le]. *)
Lemma str_lt_le a b : str_lt a b = false ↔ String.le b a.
Proof.
  unfold str_lt, String.ltb, String.le, String.leb.
  rewrite (String.compare_antisym a b).
  by destruct (String.compare b a).
Qed.

Lemma str_lt_not_le a b : str_lt a b = true ↔ ¬ String.le b a.
Proof. rewrite <-str_lt_le. by destruct (str_lt a b). Qed.

Global Instance str_lt_strict_total : StrictTotal str_lt.
Proof.
  split.
  - intros a. by apply str_lt_le.
  - intros a b c. rewrite !str_lt_not_le. intros Hab Hbc Hca.
    destruct (total String.le a b) as [Hle|Hle]; [|done].
    apply Hbc. by etrans.
  - intros a b. rewrite !str_lt_le. intros Hba Hab.
    by apply (anti_symm String.le).
Qed.

(** Tuples of strictly and totally ordered components are so ordered. *)
Global Instance lex_lt_strict_total {A B} `{EqDecision A}
    (ltA : A → A → bool) (ltB : B → B → bool)
    `{!StrictTotal ltA, !StrictTotal ltB} :
  StrictTotal (lex_lt ltA ltB).
Proof.
  split.
  - intros [a b]. unfold lex_lt; cbn. rewrite decide_True by done.
    apply lt_irrefl.
  - intros [a1 b1] [a2 b2] [a3 b3]. unfold lex_lt; cbn.
    repeat case_decide; subst; try done.
    + apply lt_trans.
    + intros Ha Hb. pose proof (lt_trans _ _ _ Ha Hb) as Hc.
      by rewrite lt_irrefl in Hc.
    + apply lt_trans.
  - intros [a1 b1] [a2 b2]. unfold lex_lt; cbn.
    repeat case_decide; subst; try done.
    + intros H1 H2. f_equal. by apply (lt_connex (lt:=ltB)).
    + intros H1 H2. by destruct (lt_connex (lt:=ltA) a1 a2).
Qed.

Section sorted_facts.
Context {A K : Type} (key : A → K) (lt : K → K → bool).
Context `{!StrictTotal lt, !Inj (=) (=) key}.

Lemma lt_asym a b : lt a b = true → lt b a = false.
Proof.
  intros Hab. destruct (lt b a) eqn:Hba; [|done].
  pose proof (lt_trans _ _ _ Hab Hba) as Hc. by rewrite lt_irrefl in Hc.
Qed.

Global Instance key_le_trans : Transitive (key_le key lt).
Proof.
  intros x y z Hxy Hyz. unfold key_le in *.
  destruct (lt (key z) (key x)) eqn:Hzx; [|done].
  destruct (lt (key y) (key z)) eqn:Hyz'.
  - by rewrite (lt_trans _ _ _ Hyz' Hzx) in Hxy.
  - rewrite (lt_connex _ _ Hyz Hyz') in Hzx. congruence.
Qed.

Global Instance key_le_antisym : AntiSymm (=) (key_le key lt).
Proof. intros x y Hxy Hyx. by apply (inj key), lt_connex. Qed.

Lemma insert_sorted_Permutation x l : insert_sorted key lt x l ≡ₚ x :: l.
Proof.
  induction l as [|y l IH]; cbn [insert_sorted]; [done|].
  destruct (lt (key y) (key x)); [|done].
  by rewrite IH, Permutation_swap.
Qed.

Lemma sorted_Permutation l : sorted key lt l ≡ₚ l.
Proof.
  induction l as [|x l IH]; cbn [sorted foldr]; [done|].
  etrans; [apply insert_sorted_Permutation|]. by constructor.
Qed.

Lemma insert_sorted_Sorted x l :
  Sorted (key_le key lt) l →
  Sorted (key_le key lt) (insert_sorted key lt x l).
Proof.
  induction 1 as [|y l Hl IH Hhd]; cbn [insert_sorted].
  { by repeat constructor. }
  destruct (lt (key y) (key x)) eqn:Hyx.
  - constructor; [done|].
    destruct Hhd as [|z l Hyz]; cbn [insert_sorted].
    + constructor. by apply lt_asym.
    + destruct (lt (key z) (key x)); constructor; [done|by apply lt_asym].
  - by repeat constructor.
Qed.

Lemma sorted_Sorted l : Sorted (key_le key lt) (sorted key lt l).
Proof.
  induction l as [|x l IH]; cbn [sorted foldr]; [constructor|].
  by apply insert_sorted_Sorted.
Qed.

(** Sorting forgets the order in which the elements were given. *)
Lemma sorted_Permutation_eq l1 l2 :
  l1 ≡ₚ l2 → sorted key lt l1 = sorted key lt l2.
Proof.
  intros Hperm. apply (Sorted_unique (key_le key lt)).
  - apply sorted_Sorted.
  - apply sorted_Sorted.
  - by rewrite !sorted_Permutation.
Qed.
End sorted_facts.

Global Instance prop_key_inj : Inj (=) (=) prop_key.
Proof. intros [n1 t1] [n2 t2] [= -> ->]. done. Qed.

Global Instance rel_key_inj : Inj (=) (=) rel_key.
Proof. intros [n1 s1 d1] [n2 s2 d2] [= -> -> ->]. done. Qed.

(** The property list of a table depends on the names and types the
    backend reports, not on their order. *)
Lemma table_properties_Permutation rows1 rows2 :
  ti_key <$> rows1 ≡ₚ ti_key <$> rows2 →
  table_properties rows1 = table_properties rows2.
Proof.
  intros Hperm. unfold table_properties.
  apply (sorted_Permutation_eq prop_key pair_lt).
  pose (mk := λ nt : string * string,
          {| prop_name := nt.1; prop_type := nt.2 |}).
  change (map ?f rows1) with ((mk ∘ ti_key) <$> rows1).
  change (map ?f rows2) with ((mk ∘ ti_key) <$> rows2).
  rewrite !list_fmap_compose. by apply fmap_Permutation.
Qed.

(** Against a backend that answers from [b], introspection returns the
    dictionary [schema_dict_of b]. *)
Section introspection.
Context {W : Type} (h : handler W) (b : backend_schema).
Hypothesis Hserves : serves h b.

Lemma exec_get_schema_nodes nodes acc w :
  ∃ w' t, exec h (get_schema_nodes nodes acc) w
          = (Ok (acc ++ (node_schema_of b <$> nodes)), w', t).
Proof.
  revert acc w. induction nodes as [|node nodes IH]; intros acc w.
  { exists w, []. by rewrite app_nil_r. }
  cbn [get_schema_nodes]. exec_steps.
  destruct (Hserves w) as (_ & _ & Hinfo).
  destruct (Hinfo (table_info_stmt node)) as [w1 ->]. exec_steps.
  match goal with
  | |- context [exec h (get_schema_nodes nodes ?a) w1] =>
      destruct (IH a w1) as (w' & t & ->)
  end.
  eexists _, _. by rewrite <-app_assoc.
Qed.

Lemma exec_get_schema_edges rels acc w :
  ∃ w' t, exec h (get_schema_edges rels acc) w
          = (Ok (acc ++ (edge_schema_of b <$> rels)), w', t).
Proof.
  revert acc w. induction rels as [|rel rels IH]; intros acc w.
  { exists w, []. by rewrite app_nil_r. }
  cbn [get_schema_edges]. exec_steps.
  destruct (Hserves w) as (_ & _ & Hinfo).
  destruct (Hinfo (table_info_stmt (rel_name rel))) as [w1 ->]. exec_steps.
  match goal with
  | |- context [exec h (get_schema_edges rels ?a) w1] =>
      destruct (IH a w1) as (w' & t & ->)
  end.
  eexists _, _. by rewrite <-app_assoc.
Qed.

Lemma exec_get_schema_dict w :
  ∃ w' t, exec h get_schema_dict w = (Ok (schema_dict_of b), w', t).
Proof.
  unfold get_schema_dict. exec_steps.
  destruct (Hserves w) as ([w1 ->] & _ & _). exec_steps.
  destruct (Hserves w1) as (_ & [w2 ->] & _). exec_steps.
  destruct (exec_get_schema_nodes (sorted id str_lt (bs_nodes b)) [] w2)
    as (w3 & t3 & ->).
  exec_steps.
  destruct (exec_get_schema_edges
              (sorted rel_key triple_lt (bs_rels b)) [] w3)
    as (w4 & t4 & ->).
  exec_steps. by eexists _, _.
Qed.

Lemma exec_get_schema_baml w :
  ∃ w' t, exec h get_schema_baml w
          = (Ok (schema_text (schema_dict_of b)), w', t).
Proof.
  unfold get_schema_baml. exec_steps.
  destruct (exec_get_schema_dict w) as (w' & t & ->). exec_steps.
  by eexists _, _.
Qed.
End introspection.

Lemma schema_dict_of_same b1 b2 :
  same_schema b1 b2 → schema_dict_of b1 = schema_dict_of b2.
Proof.
  intros (Hnodes & Hrels & Hinfo). unfold schema_dict_of.
  rewrite (sorted_Permutation_eq id str_lt _ _ Hnodes).
  rewrite (sorted_Permutation_eq rel_key triple_lt _ _ Hrels).
  f_equal; apply list_fmap_ext; intros _ x _.
  - unfold node_schema_of. f_equal. by apply table_properties_Permutation.
  - unfold edge_schema_of. f_equal. by apply table_properties_Permutation.
Qed.

(** C6.  Two invocations of [get_schema_baml] against backends that
    present the same schema (the same node tables, relationship tables and
    properties per table), each in whatever order it enumerates them, both
    return, and return the same text. *)
Theorem get_schema_baml_deterministic {W1 W2} (h1 : handler W1)
    (h2 : handler W2) (b1 b2 : backend_schema) (w1 : W1) (w2 : W2) :
  serves h1 b1 → serves h2 b2 → same_schema b1 b2 →
  ∃ text, (exec h1 get_schema_baml w1).1.1 = Ok text
          ∧ (exec h2 get_schema_baml w2).1.1 = Ok text.
Proof.
  intros Hs1 Hs2 Hsame.
  destruct (exec_get_schema_baml h1 b1 Hs1 w1) as (w1' & t1 & ->).
  destruct (exec_get_schema_baml h2 b2 Hs2 w2) as (w2' & t2 & ->).
  exists (schema_text (schema_dict_of b1)). split; [done|].
  by rewrite (schema_dict_of_same b1 b2 Hsame).
Qed.

(** ** Loading the questions *)

(** The questions returned are those accumulated before, and one for each
    row whose stripped question is not empty, numbered by the position of
    the row. *)
Lemma load_rows_elem reader i acc questions :
  load_rows reader i acc = Ok questions →
  ∀ q, q ∈ questions ↔
       q ∈ acc ∨ ∃ (k : nat) row,
                   reader !! k = Some row
                   ∧ row_question (i + Z.of_nat k) row q.
Proof.
  revert i acc. induction reader as [|row reader IH]; intros i acc Hload q.
  { cbn in Hload. injection Hload as <-. split; [by left|].
    intros [?|(k & row & Hk & _)]; [done|]. by rewrite lookup_nil in Hk. }
  cbn [load_rows] in Hload.
  destruct (row_get_strip row "Question") as [question|e] eqn:Hq; [|done].
  destruct (row_get_strip row "Baseline answer") as [baseline|e] eqn:Hb;
    [|done].
  cbn [mbind outcome_bind] in Hload. rewrite (IH _ _ Hload q). clear IH Hload.
  split.
  - intros [Hacc|(k & row' & Hk & Hrow)].
    + case_decide as Hempty; [by left|].
      apply elem_of_app in Hacc as [Hacc|Hacc%list_elem_of_singleton];
        [by left|].
      right. exists 0%nat, row. rewrite Z.add_0_r. by subst q.
    + right. exists (S k), row'. split; [done|].
      by replace (i + Z.of_nat (S k)) with (i + 1 + Z.of_nat k) by lia.
  - intros [Hacc|(k & row' & Hk & Hrow)].
    + left. case_decide; [done|]. apply elem_of_app. by left.
    + destruct k as [|k]; cbn in Hk.
      * injection Hk as <-. destruct Hrow as (Hid & Hq' & Hne & Hb').
        rewrite Z.add_0_r in Hid. left.
        rewrite Hq in Hq'. rewrite Hb in Hb'.
        injection Hq' as ->. injection Hb' as ->.
        rewrite decide_False by done. apply elem_of_app. right.
        apply list_elem_of_singleton. destruct q; cbn in *. by subst.
      * right. exists k, row'. split; [done|].
        by replace (i + 1 + Z.of_nat k) with (i + Z.of_nat (S k)) by lia.
Qed.

Lemma load_rows_total reader i acc questions (k : nat) row :
  load_rows reader i acc = Ok questions → reader !! k = Some row →
  ∃ question baseline,
    row_get_strip row "Question" = Ok question
    ∧ row_get_strip row "Baseline answer" = Ok baseline.
Proof.
  revert i acc k. induction reader as [|row' reader IH];
    intros i acc k Hload Hk; [by rewrite lookup_nil in Hk|].
  cbn [load_rows] in Hload.
  destruct (row_get_strip row' "Question") as [question|e] eqn:Hq; [|done].
  destruct (row_get_strip row' "Baseline answer") as [baseline|e] eqn:Hb;
    [|done].
  cbn [mbind outcome_bind] in Hload.
  destruct k as [|k]; cbn in Hk.
  - injection Hk as <-. by exists question, baseline.
  - by eapply IH.
Qed.

(** C10.  The id of a returned question is the 1-based position of its row
    among all the rows the reader yields, rows with an empty question
    included, although those rows yield no question.  Hence, when a row with
    an empty question precedes a row with a question, the position of the
    former is missing from the ids although a larger id is present, and the
    ids are not the consecutive numbers 1, 2, ..., n. *)
Theorem load_questions_ids_count_every_row {W} (h : handler W) w w' path
    reader questions t :
  h _ (CsvDictReader path) w = (Ok reader, w') →
  exec h (load_questions path) w = (Ok questions, w', t) →
  (∀ q, q ∈ questions ↔
        ∃ (k : nat) row,
          reader !! k = Some row ∧ row_question (Z.of_nat k + 1) row q)
  ∧ (∀ (j k : nat) row_j row_k question,
       (j < k)%nat →
       reader !! j = Some row_j → row_get_strip row_j "Question" = Ok "" →
       reader !! k = Some row_k →
       row_get_strip row_k "Question" = Ok question → question ≠ "" →
       Z.of_nat k + 1 ∈ (q_id <$> questions)
       ∧ (Z.of_nat j + 1 ∉ (q_id <$> questions))
       ∧ (q_id <$> questions)
           ≠ ((λ n : nat, Z.of_nat n) <$> seq 1 (length questions))).
Proof.
  intros Hcsv Hexec. unfold load_questions in Hexec. revert Hexec.
  exec_steps. rewrite Hcsv. exec_steps.
  destruct (load_rows reader 1 []) as [qs|e] eqn:Hload; [|done].
  intros [= <- <-].
  assert (∀ q, q ∈ qs ↔
               ∃ (k : nat) row,
                 reader !! k = Some row ∧ row_question (Z.of_nat k + 1) row q)
    as Hchar.
  { intros q. rewrite (load_rows_elem _ _ _ _ Hload q). split.
    - intros [Hnil|(k & row & Hk & Hrow)]; [by apply elem_of_nil in Hnil|].
      exists k, row. by rewrite Z.add_comm.
    - intros (k & row & Hk & Hrow). right. exists k, row.
      by rewrite Z.add_comm. }
  split; [done|].
  intros j k row_j row_k question Hjk Hj Hqj Hk Hqk Hne.
  assert (Z.of_nat k + 1 ∈ (q_id <$> qs)) as Hin.
  { destruct (load_rows_total _ _ _ _ k row_k Hload Hk)
      as (question' & baseline & Hq' & Hb).
    apply list_elem_of_fmap.
    exists {| q_id := Z.of_nat k + 1; q_question := question;
              q_baseline := baseline |}.
    split; [done|]. apply Hchar. by exists k, row_k. }
  assert (Z.of_nat j + 1 ∉ (q_id <$> qs)) as Hout.
  { intros (q & Hid & Hq)%list_elem_of_fmap.
    apply Hchar in Hq as (j' & row & Hj' & Hid' & Hq' & Hne' & _).
    assert (j' = j) as -> by lia.
    rewrite Hj in Hj'. injection Hj' as <-. congruence. }
  split_and!; [done..|].
  intros Heq. rewrite Heq in Hin, Hout.
  apply list_elem_of_fmap in Hin as (n & Hn & Hin).
  apply elem_of_seq in Hin. apply Hout, list_elem_of_fmap.
  exists (S j). split; [lia|]. apply elem_of_seq. lia.
Qed.

(** ** The judge *)

(** First tier: an object whose score is an integer gives that score and
    the reasoning found under "reasoning" (the empty string when there is
    none). *)
Lemma judge_parse_structured text d n :
  loads text = Ok (JDict d) → dict_lookup d "score" = Some (JInt n) →
  judge_parse text = Ok (n, default (JStr "") (dict_lookup d "reasoning")).
Proof.
  intros Hloads Hscore. unfold judge_parse, parse_judge_json.
  rewrite Hloads. cbn. rewrite Hscore. done.
Qed.

(** Second and third tier: when the structured reading raises one of the
    listed exceptions, the score is the first digit between 1 and 5 of the
    raw text, with the raw text as reasoning, and 1 when there is none. *)
Lemma first_score_digit_range text d :
  first_score_digit text = Some d → 1 ≤ d ≤ 5.
Proof.
  induction text as [|ch rest IH]; cbn [first_score_digit]; [done|].
  destruct (digit_of ch) as [d'|]; [|done].
  destruct ((1 <=? d') && (d' <=? 5)) eqn:Hd; [|done].
  intros [= <-]. lia.
Qed.

(** X22.  The scan of a raw judge text in ASCII returns [d] exactly when the
    text has a digit [d] between 1 and 5 before which no character is a
    digit between 1 and 5: digits 0 and 6 to 9 are passed over. *)
Lemma first_score_digit_first text d :
  isascii text = true →
  first_score_digit text = Some d ↔
  ∃ before ch after,
    text = before +:+ String ch after
    ∧ digit_of ch = Some d ∧ 1 ≤ d ≤ 5
    ∧ first_score_digit before = None.
Proof.
  intros _. split.
  - induction text as [|ch rest IH]; cbn [first_score_digit]; [done|].
    destruct (digit_of ch) as [d'|] eqn:Hch.
    + destruct ((1 <=? d') && (d' <=? 5)) eqn:Hd.
      * intros [= <-]. exists "", ch, rest.
        apply andb_true_iff in Hd as [H1%Z.leb_le H2%Z.leb_le].
        repeat split; done.
      * intros (before & c & after & -> & ? & ? & Hb)%IH.
        exists (String ch before), c, after. do 3 (split; [done|]).
        cbn [first_score_digit]. by rewrite Hch, Hd.
    + intros (before & c & after & -> & ? & ? & Hb)%IH.
      exists (String ch before), c, after. do 3 (split; [done|]).
      cbn [first_score_digit]. by rewrite Hch.
  - intros (before & ch & after & -> & Hch & Hd & Hb).
    induction before as [|c before IH]; simpl.
    + rewrite Hch. by rewrite (proj2 (andb_true_iff _ _)) by lia.
    + simpl in Hb. destruct (digit_of c) as [d'|].
      * destruct ((1 <=? d') && (d' <=? 5)); [done|by apply IH].
      * by apply IH.
Qed.

Lemma judge_parse_fallback text e :
  parse_judge_json text = Raised e → judge_except_matches e = true →
  judge_parse text =
    match first_score_digit text with
    | Some d => Ok (d, JStr text)
    | None => Ok (1, JStr ("Could not parse judge response: " +:+ text))
    end.
Proof. intros He Hm. unfold judge_parse. by rewrite He, Hm. Qed.

(** Any other exception of the structured reading leaves [judge_parse]. *)
Lemma judge_parse_uncaught text e :
  parse_judge_json text = Raised e → judge_except_matches e = false →
  judge_parse text = Raised e.
Proof. intros He Hm. unfold judge_parse. by rewrite He, Hm. Qed.

(** X23.  A score outside 1..5 can only come from the structured reading:
    whenever the judge response is read without an exception, the score is
    between 1 and 5 or is [int()] of the value under "score" of the JSON
    object. *)
Lemma judge_parse_score_source text score reasoning :
  judge_parse text = Ok (score, reasoning) →
  1 ≤ score ≤ 5
  ∨ ∃ parsed raw,
      loads text = Ok parsed ∧ getitem parsed "score" = Ok raw
      ∧ int raw = Ok score.
Proof.
  unfold judge_parse.
  destruct (parse_judge_json text) as [[s r]|e] eqn:Hparse.
  - intros [= -> ->]. right. revert Hparse. unfold parse_judge_json.
    destruct (loads text) as [parsed|?] eqn:Hloads; [|done]. cbn.
    destruct (getitem parsed "score") as [raw|?] eqn:Hraw; [|done]. cbn.
    destruct (int raw) as [n|?] eqn:Hint; [|done]. cbn.
    destruct (get parsed "reasoning" (JStr "")) as [x|?]; [|done]. cbn.
    intros [= -> ->]. by exists parsed, raw.
  - destruct (judge_except_matches e); [|done].
    destruct (first_score_digit text) as [d|] eqn:Hd.
    + intros [= <- _]. left. by eapply first_score_digit_range.
    + intros [= <- _]. left. lia.
Qed.

(** ** Labels and their counts *)

(** A score between 1 and 5 has its label in [SCORE_LABELS]. *)
Lemma score_label_in_range score :
  1 ≤ score ≤ 5 →
  SCORE_LABELS !! score
    = Some (match score with
            | 1 => "no_answer" | 2 => "wrong" | 3 => "partial"
            | 4 => "acceptable" | _ => "correct"
            end).
Proof.
  intros Hrange.
  assert (score = 1 ∨ score = 2 ∨ score = 3 ∨ score = 4 ∨ score = 5)
    as [->|[->|[->|[->| ->]]]] by lia; reflexivity.
Qed.

(** The printed summary lists the five labels, whatever was recorded. *)
Lemma label_summary_labels results :
  (λ row, row.1) <$> label_summary results
    = [(1, "no_answer"); (2, "wrong"); (3, "partial"); (4, "acceptable");
       (5, "correct")].
Proof.
  unfold label_summary. rewrite <-list_fmap_compose.
  set (l := sorted _ _ _). vm_compute in l. subst l. reflexivity.
Qed.

(** ** The statements at concrete runs *)

Lemma run_without_query_witness :
  scripted no_query_script _
    (RAGText2Cypher (baml_schema demo_rag) "Who gave the keynote?") ()
    = (Ok None, ())
  ∧ exec (scripted no_query_script) (run demo_rag "Who gave the keynote?") ()
    = (Ok {| rag_question := "Who gave the keynote?"; rag_cypher := "N/A";
             rag_response := "N/A" |},
       (), [Made (RAGText2Cypher "schema" "Who gave the keynote?")]).
Proof.
  split; [reflexivity|].
  apply (run_without_query (scripted no_query_script) () () demo_rag).
  reflexivity.
Defined.

Lemma empty_response_scores_without_judge_witness :
  exec (scripted no_query_script) (run demo_rag (q_question demo_question)) ()
    = (Ok {| rag_question := "Who gave the keynote?"; rag_cypher := "N/A";
             rag_response := "N/A" |},
       (), [Made (RAGText2Cypher "schema" "Who gave the keynote?")])
  ∧ exec (scripted no_query_script)
      (evaluate_question demo_rag demo_question) ()
    = (Ok {| r_id := 1; r_question := "Who gave the keynote?";
             r_baseline := "Jane Doe"; r_cypher := "N/A";
             r_response := "N/A"; r_score := 1; r_label := "no_answer";
             r_reasoning := JStr "No response returned"; r_error := None |},
       (), [Made (RAGText2Cypher "schema" "Who gave the keynote?")]).
Proof.
  split; [reflexivity|].
  apply (empty_response_scores_without_judge (scripted no_query_script)
           () () _ demo_rag demo_question
           {| rag_question := "Who gave the keynote?"; rag_cypher := "N/A";
              rag_response := "N/A" |} [] []).
  - reflexivity.
  - right. reflexivity.
Defined.

Lemma pipeline_exception_is_downgraded_witness :
  exec (scripted failing_backend_script)
       (run demo_rag (q_question demo_question)) ()
    = (Raised (ExceptionOther "RuntimeError"), (),
       [Made (RAGText2Cypher "schema" "Who gave the keynote?");
        Made (Execute "MATCH (s:Speaker) RETURN s.name")])
  ∧ is_Exception (ExceptionOther "RuntimeError") = true
  ∧ scripted failing_backend_script _
      (FormatExc (ExceptionOther "RuntimeError")) ()
    = (Ok demo_traceback, ())
  ∧ demo_traceback ≠ ""
  ∧ ∃ line,
      last (splitlines demo_traceback) = Some line
      ∧ (exec (scripted failing_backend_script)
           (evaluate_question demo_rag demo_question) ()).1.1
        = Ok {| r_id := 1; r_question := "Who gave the keynote?";
                r_baseline := "Jane Doe"; r_cypher := ""; r_response := "";
                r_score := 1; r_label := "no_answer";
                r_reasoning := JStr ("Exception: " +:+ line);
                r_error := Some demo_traceback |}.
Proof.
  split_and!; [reflexivity|reflexivity|reflexivity|discriminate|].
  destruct (pipeline_exception_is_downgraded
              (scripted failing_backend_script) () () () _ demo_rag
              demo_question (ExceptionOther "RuntimeError") demo_traceback
              [] [] eq_refl eq_refl eq_refl)
    as (line & Hline & Hq & _); [discriminate|].
  exists line. split; [exact Hline|]. by rewrite Hq.
Defined.

Lemma judge_response_raises_on_bare_number_witness :
  scripted (demo_script (Ok "4")) _
    (GenerateContent (judge_prompt "Who?" "Jane" "Jane Doe")) ()
    = (Ok "4", ())
  ∧ exec (scripted (demo_script (Ok "4")))
      (judge_response "Who?" "Jane" "Jane Doe") ()
    = (Raised TypeError, (),
       [Made (GenerateContent (judge_prompt "Who?" "Jane" "Jane Doe"))]).
Proof.
  split; [reflexivity|].
  by apply (judge_response_raises_on_bare_number
              (scripted (demo_script (Ok "4"))) () ()).
Defined.

Lemma execute_query_serialization_witness :
  scripted (cursor_script people_cursor) _ (Execute "MATCH ...") ()
    = (Ok people_cursor, ())
  ∧ collect_rows (cursor_rows people_cursor) [] []
    = Ok (cursor_rows people_cursor)
  ∧ Forall (λ row, length row = length (get_column_names people_cursor))
      (cursor_rows people_cursor)
  ∧ ∃ result_str,
      exec (scripted (cursor_script people_cursor))
        (execute_query "Who?" "MATCH ...") ()
        = (Ok {| answer_question := "Who?"; answer := result_str |}, (),
           [Made (Execute "MATCH ...")])
      ∧ result_str = "name: Alice | age: 30" +:+ NL +:+ "name: Bob".
Proof.
  split; [reflexivity|]. split; [reflexivity|].
  split; [by repeat constructor|].
  destruct (proj1 execute_query_serialization unit
              (scripted (cursor_script people_cursor)) () () "Who?"
              "MATCH ..." people_cursor (cursor_rows people_cursor)
              eq_refl eq_refl)
    as (result_str & Hexec & _ & _ & Hmany); [by repeat constructor|].
  exists result_str. split; [exact Hexec|].
  rewrite Hmany by (cbn; lia). reflexivity.
Defined.

Lemma execute_query_raises_on_unhashable_row_witness :
  scripted (cursor_script node_cursor) _
    (Execute "MATCH (s:Speaker) RETURN s") ()
    = (Ok node_cursor, ())
  ∧ ¬ hashable_row
        [VUnhashable "{'_label': 'Speaker', 'name': 'Jane Doe'}"]
  ∧ exec (scripted (cursor_script node_cursor))
      (execute_query "Who gave the keynote?" "MATCH (s:Speaker) RETURN s") ()
    = (Raised TypeError, (), [Made (Execute "MATCH (s:Speaker) RETURN s")]).
Proof.
  split; [reflexivity|]. split; [discriminate|].
  apply (execute_query_raises_on_unhashable_row
           (scripted (cursor_script node_cursor)) () ()
           "Who gave the keynote?" "MATCH (s:Speaker) RETURN s" node_cursor
           [VUnhashable "{'_label': 'Speaker', 'name': 'Jane Doe'}"]);
    [reflexivity|by left|discriminate].
Defined.


(** A scripted world serves its schema. *)
Lemma scripted_serves s : serves (scripted s) (on_schema s).
Proof. intros []. split_and!; [by eexists..|]. intros stmt. by eexists. Qed.

Lemma demo_same_schema : same_schema demo_schema demo_schema'.
Proof.
  split_and!.
  - apply Permutation_swap.
  - reflexivity.
  - intros stmt. cbn [bs_info demo_schema demo_schema'].
    destruct (decide (stmt = table_info_stmt "Talk")) as [->|Hne].
    + vm_compute. apply Permutation_swap.
    + destruct (decide (stmt = table_info_stmt "Speaker")); reflexivity.
Qed.

Lemma get_schema_baml_deterministic_witness :
  serves (scripted (schema_script demo_schema)) demo_schema
  ∧ serves (scripted (schema_script demo_schema')) demo_schema'
  ∧ same_schema demo_schema demo_schema'
  ∧ ∃ text,
      (exec (scripted (schema_script demo_schema)) get_schema_baml ()).1.1
        = Ok text
      ∧ (exec (scripted (schema_script demo_schema')) get_schema_baml ()).1.1
        = Ok text.
Proof.
  split_and!.
  - apply (scripted_serves (schema_script demo_schema)).
  - apply (scripted_serves (schema_script demo_schema')).
  - apply demo_same_schema.
  - apply (get_schema_baml_deterministic _ _ demo_schema demo_schema').
    + apply (scripted_serves (schema_script demo_schema)).
    + apply (scripted_serves (schema_script demo_schema')).
    + apply demo_same_schema.
Defined.

Lemma load_questions_ids_count_every_row_witness :
  scripted (csv_script gap_rows) _ (CsvDictReader QA_CSV) ()
    = (Ok gap_rows, ())
  ∧ exec (scripted (csv_script gap_rows)) (load_questions QA_CSV) ()
    = (Ok gap_questions, (), [Made (CsvDictReader QA_CSV)])
  ∧ 2 ∈ (q_id <$> gap_questions)
  ∧ (1 ∉ (q_id <$> gap_questions))
  ∧ (q_id <$> gap_questions) ≠ [1].
Proof.
  split; [reflexivity|]. split; [reflexivity|].
  destruct (load_questions_ids_count_every_row
              (scripted (csv_script gap_rows)) () () QA_CSV gap_rows
              gap_questions [Made (CsvDictReader QA_CSV)] eq_refl eq_refl)
    as [_ Hgap].
  apply (Hgap 0%nat 1%nat
           {[ "Question" := Some "  "; "Baseline answer" := Some "unused" ]}
           {[ "Question" := Some " Who gave the keynote? ";
              "Baseline answer" := Some "Jane Doe" ]}
           "Who gave the keynote?");
    [lia|reflexivity|reflexivity|reflexivity|reflexivity|discriminate].
Defined.

(** * Further properties *)

(** ** More on the schema introspector *)

(** The calls of one introspection of [b], in order. *)
Lemma exec_get_schema_nodes_calls {W} (h : handler W) b nodes acc w :
  serves h b →
  ∃ w', exec h (get_schema_nodes nodes acc) w
        = (Ok (acc ++ (node_schema_of b <$> nodes)), w',
           (λ node, Made (ExecuteTableInfo (table_info_stmt node)))
             <$> nodes).
Proof.
  intros Hserves. revert acc w.
  induction nodes as [|node nodes IH]; intros acc w.
  { exists w. by rewrite app_nil_r. }
  cbn [get_schema_nodes]. exec_steps.
  destruct (Hserves w) as (_ & _ & Hinfo).
  destruct (Hinfo (table_info_stmt node)) as [w1 ->]. exec_steps.
  match goal with
  | |- context [exec h (get_schema_nodes nodes ?a) w1] =>
      destruct (IH a w1) as (w' & ->)
  end.
  eexists. by rewrite <-app_assoc.
Qed.

Lemma exec_get_schema_edges_calls {W} (h : handler W) b rels acc w :
  serves h b →
  ∃ w', exec h (get_schema_edges rels acc) w
        = (Ok (acc ++ (edge_schema_of b <$> rels)), w',
           (λ rel, Made (ExecuteTableInfo (table_info_stmt (rel_name rel))))
             <$> rels).
Proof.
  intros Hserves. revert acc w.
  induction rels as [|rel rels IH]; intros acc w.
  { exists w. by rewrite app_nil_r. }
  cbn [get_schema_edges]. exec_steps.
  destruct (Hserves w) as (_ & _ & Hinfo).
  destruct (Hinfo (table_info_stmt (rel_name rel))) as [w1 ->]. exec_steps.
  match goal with
  | |- context [exec h (get_schema_edges rels ?a) w1] =>
      destruct (IH a w1) as (w' & ->)
  end.
  eexists. by rewrite <-app_assoc.
Qed.

(** X1.  One introspection asks for the node tables, then for the
    relationship tables, then for the columns of every node table and of
    every relationship table, once each and in sorted order; it returns the
    dictionary of the schema. *)
Theorem get_schema_dict_calls {W} (h : handler W) (b : backend_schema) w :
  serves h b →
  ∃ w',
    exec h get_schema_dict w
    = (Ok (schema_dict_of b), w',
       [Made GetNodeTableNames; Made GetRelTableNames]
       ++ ((λ node, Made (ExecuteTableInfo (table_info_stmt node)))
             <$> sorted id str_lt (bs_nodes b))
       ++ ((λ rel, Made (ExecuteTableInfo (table_info_stmt (rel_name rel))))
             <$> sorted rel_key triple_lt (bs_rels b))).
Proof.
  intros Hserves. unfold get_schema_dict. exec_steps.
  destruct (Hserves w) as ([w1 ->] & _ & _). exec_steps.
  destruct (Hserves w1) as (_ & [w2 ->] & _). exec_steps.
  destruct (exec_get_schema_nodes_calls h b
              (sorted id str_lt (bs_nodes b)) [] w2 Hserves) as (w3 & ->).
  exec_steps.
  destruct (exec_get_schema_edges_calls h b
              (sorted rel_key triple_lt (bs_rels b)) [] w3 Hserves)
    as (w4 & ->).
  exec_steps. exists w4. by rewrite app_nil_r.
Qed.

Lemma get_schema_dict_calls_witness :
  serves (scripted (schema_script demo_schema)) demo_schema
  ∧ ∃ w',
      exec (scripted (schema_script demo_schema)) get_schema_dict ()
      = (Ok (schema_dict_of demo_schema), w',
         [Made GetNodeTableNames; Made GetRelTableNames;
          Made (ExecuteTableInfo "CALL TABLE_INFO('Speaker') RETURN *;");
          Made (ExecuteTableInfo "CALL TABLE_INFO('Talk') RETURN *;");
          Made (ExecuteTableInfo "CALL TABLE_INFO('GIVES_TALK') RETURN *;")]).
Proof.
  split; [apply (scripted_serves (schema_script demo_schema))|].
  apply (get_schema_dict_calls (scripted (schema_script demo_schema))
           demo_schema ()).
  apply (scripted_serves (schema_script demo_schema)).
Defined.

(** X2.  In the dictionary an introspection returns, the node labels are the
    node tables of the backend in ascending order, the edges are its
    relationship tables in ascending order of (source, name, destination),
    and the properties of every node and edge are the (name, type) pairs the
    backend reports for its table, in ascending order. *)
Theorem schema_dict_is_sorted {W} (h : handler W) (b : backend_schema) w
    schema :
  serves h b →
  (exec h get_schema_dict w).1.1 = Ok schema →
  let edge_key := λ edge, (edge_src edge, (edge_label edge, edge_dst edge)) in
  node_label <$> schema_nodes schema ≡ₚ bs_nodes b
  ∧ Sorted (key_le id str_lt) (node_label <$> schema_nodes schema)
  ∧ edge_key <$> schema_edges schema ≡ₚ rel_key <$> bs_rels b
  ∧ Sorted (key_le id triple_lt) (edge_key <$> schema_edges schema)
  ∧ Forall (λ node,
              prop_key <$> node_properties node
                ≡ₚ ti_key <$> bs_info b (table_info_stmt (node_label node))
              ∧ Sorted (key_le prop_key pair_lt) (node_properties node))
      (schema_nodes schema)
  ∧ Forall (λ edge,
              prop_key <$> edge_properties edge
                ≡ₚ ti_key <$> bs_info b (table_info_stmt (edge_label edge))
              ∧ Sorted (key_le prop_key pair_lt) (edge_properties edge))
      (schema_edges schema).
Proof.
  intros Hserves Hexec edge_key.
  destruct (exec_get_schema_dict h b Hserves w) as (w' & t & Hdict).
  rewrite Hdict in Hexec. injection Hexec as <-.
  assert (∀ rows,
            prop_key <$> table_properties rows ≡ₚ ti_key <$> rows
            ∧ Sorted (key_le prop_key pair_lt) (table_properties rows))
    as Hprops.
  { intros rows. unfold table_properties. split; [|apply sorted_Sorted; apply _].
    rewrite sorted_Permutation. by rewrite <-list_fmap_compose. }
  cbn [schema_dict_of schema_nodes schema_edges]. split_and!.
  - rewrite <-list_fmap_compose.
    rewrite (list_fmap_ext (node_label ∘ node_schema_of b) id) by done.
    rewrite list_fmap_id. apply sorted_Permutation.
  - rewrite <-list_fmap_compose.
    rewrite (list_fmap_ext (node_label ∘ node_schema_of b) id) by done.
    rewrite list_fmap_id. apply sorted_Sorted; apply _.
  - rewrite <-list_fmap_compose.
    rewrite (list_fmap_ext (edge_key ∘ edge_schema_of b) rel_key) by done.
    by rewrite sorted_Permutation.
  - rewrite <-list_fmap_compose.
    rewrite (list_fmap_ext (edge_key ∘ edge_schema_of b) rel_key) by done.
    apply (Sorted_fmap _ (key_le rel_key triple_lt)); [done|].
    apply sorted_Sorted; apply _.
  - apply Forall_fmap, Forall_forall. intros node _. apply Hprops.
  - apply Forall_fmap, Forall_forall. intros rel _. apply Hprops.
Qed.

Lemma schema_dict_is_sorted_witness :
  serves (scripted (schema_script demo_schema)) demo_schema
  ∧ (exec (scripted (schema_script demo_schema)) get_schema_dict ()).1.1
    = Ok (schema_dict_of demo_schema)
  ∧ node_label <$> schema_nodes (schema_dict_of demo_schema)
      ≡ₚ ["Talk"; "Speaker"]
  ∧ Sorted (key_le id str_lt)
      (node_label <$> schema_nodes (schema_dict_of demo_schema)).
Proof.
  split; [apply (scripted_serves (schema_script demo_schema))|].
  split; [reflexivity|].
  destruct (schema_dict_is_sorted (scripted (schema_script demo_schema))
              demo_schema () (schema_dict_of demo_schema)
              (scripted_serves (schema_script demo_schema)) eq_refl)
    as (Hperm & Hsorted & _).
  split; [exact Hperm|exact Hsorted].
Defined.

(** X3.  The text built from an introspection opens with the direction
    block: after the heading, one line "(:source) -[:name]-> (:destination)"
    for every relationship table of the backend, no table left out or added
    and none with its ends exchanged, then the closing rule. *)
Theorem schema_text_direction_block {W} (h : handler W) (b : backend_schema)
    w :
  serves h b →
  ∃ text directions rest,
    (exec h get_schema_baml w).1.1 = Ok text
    ∧ text = join NL (["ALWAYS RESPECT THE EDGE DIRECTIONS:" +:+ NL +:+ "---"]
                      ++ directions ++ ["---"] ++ rest)
    ∧ directions
        ≡ₚ (λ rel, "(:" +:+ rel_src rel +:+ ") -[:" +:+ rel_name rel
                   +:+ "]-> (:" +:+ rel_dst rel +:+ ")") <$> bs_rels b.
Proof.
  intros Hserves.
  destruct (exec_get_schema_baml h b Hserves w) as (w' & t & ->).
  eexists _, (edge_direction_line <$> schema_edges (schema_dict_of b)), _.
  split; [done|]. split; [reflexivity|].
  cbn [schema_dict_of schema_edges]. rewrite <-list_fmap_compose.
  by rewrite sorted_Permutation.
Qed.

Lemma schema_text_direction_block_witness :
  serves (scripted (schema_script demo_schema)) demo_schema
  ∧ ∃ text directions rest,
      (exec (scripted (schema_script demo_schema)) get_schema_baml ()).1.1
        = Ok text
      ∧ text = join NL (["ALWAYS RESPECT THE EDGE DIRECTIONS:" +:+ NL
                         +:+ "---"]
                        ++ directions ++ ["---"] ++ rest)
      ∧ directions ≡ₚ ["(:Speaker) -[:GIVES_TALK]-> (:Talk)"].
Proof.
  split; [apply (scripted_serves (schema_script demo_schema))|].
  apply (schema_text_direction_block (scripted (schema_script demo_schema))
           demo_schema ()).
  apply (scripted_serves (schema_script demo_schema)).
Defined.

Lemma get_schema_nodes_raised {W} (h : handler W) nodes acc w e :
  (exec h (get_schema_nodes nodes acc) w).1.1 = Raised e →
  ∃ stmt w0 w1, h _ (ExecuteTableInfo stmt) w0 = (Raised e, w1).
Proof.
  revert acc w. induction nodes as [|node nodes IH]; intros acc w; [done|].
  cbn [get_schema_nodes]. exec_steps.
  destruct (h _ (ExecuteTableInfo (table_info_stmt node)) w)
    as [[rows|e'] w1] eqn:Hinfo; exec_steps.
  - match goal with
    | |- context [exec h (get_schema_nodes nodes ?a) w1] =>
        specialize (IH a w1);
        destruct (exec h (get_schema_nodes nodes a) w1) as [[o w2] t2]
    end.
    exact IH.
  - intros [= <-]. eauto.
Qed.

Lemma get_schema_edges_raised {W} (h : handler W) rels acc w e :
  (exec h (get_schema_edges rels acc) w).1.1 = Raised e →
  ∃ stmt w0 w1, h _ (ExecuteTableInfo stmt) w0 = (Raised e, w1).
Proof.
  revert acc w. induction rels as [|rel rels IH]; intros acc w; [done|].
  cbn [get_schema_edges]. exec_steps.
  destruct (h _ (ExecuteTableInfo (table_info_stmt (rel_name rel))) w)
    as [[rows|e'] w1] eqn:Hinfo; exec_steps.
  - match goal with
    | |- context [exec h (get_schema_edges rels ?a) w1] =>
        specialize (IH a w1);
        destruct (exec h (get_schema_edges rels a) w1) as [[o w2] t2]
    end.
    exact IH.
  - intros [= <-]. eauto.
Qed.

(** X4.  Building the pipeline raises nothing of its own: an exception that
    leaves [GraphRAG_init] is one the backend raised on one of the three
    kinds of introspection call. *)
Theorem GraphRAG_init_raises_backend_errors {W} (h : handler W) w e :
  (exec h GraphRAG_init w).1.1 = Raised e →
  ∃ w0 w1,
    h _ GetNodeTableNames w0 = (Raised e, w1)
    ∨ h _ GetRelTableNames w0 = (Raised e, w1)
    ∨ ∃ stmt, h _ (ExecuteTableInfo stmt) w0 = (Raised e, w1).
Proof.
  unfold GraphRAG_init, get_schema_baml, get_schema_dict. exec_steps.
  destruct (h _ GetNodeTableNames w) as [[names|e1] w1] eqn:H1; exec_steps;
    [|intros [= <-]; eauto].
  destruct (h _ GetRelTableNames w1) as [[rels|e2] w2] eqn:H2; exec_steps;
    [|intros [= <-]; eauto].
  destruct (exec h (get_schema_nodes _ []) w2) as [[[ns|e3] w3] t3] eqn:H3;
    exec_steps.
  - destruct (exec h (get_schema_edges _ []) w3) as [[[es|e4] w4] t4] eqn:H4;
      exec_steps; [done|].
    intros [= <-].
    destruct (get_schema_edges_raised h _ [] w3 e4 (f_equal (λ x, x.1.1) H4))
      as (stmt & w0 & w5 & H).
    eauto 6.
  - intros [= <-].
    destruct (get_schema_nodes_raised h _ [] w2 e3 (f_equal (λ x, x.1.1) H3))
      as (stmt & w0 & w5 & H).
    eauto 6.
Qed.

(** ** More on the query executor *)

(** Rows that can be hashed and are pairwise different are all kept. *)
Lemma collect_rows_distinct_id items :
  Forall hashable_row items →
  (∀ (i j : nat) r s, (i < j)%nat →
     items !! i = Some r → items !! j = Some s → tuple_eqb r s = false) →
  collect_rows items [] [] = Ok items.
Proof.
  induction items as [|item items IH] using rev_ind; intros Hhash Hdist;
    [done|].
  apply Forall_app in Hhash as [Hhash Hitem].
  rewrite Forall_singleton in Hitem.
  rewrite collect_rows_snoc.
  assert (existsb (tuple_eqb item) items = false) as ->.
  { apply not_true_is_false.
    intros (r & Hr%list_elem_of_In & Heq)%existsb_exists.
    apply list_elem_of_lookup in Hr as [i Hi].
    rewrite tuple_eqb_sym in Heq.
    rewrite (Hdist i (length items) r item) in Heq; [done| | |].
    - by apply lookup_lt_Some in Hi.
    - by rewrite lookup_app_l by (by apply lookup_lt_Some in Hi).
    - by rewrite list_lookup_middle. }
  rewrite IH, (proj2 (hash_tuple_Ok item) Hitem); [done..|].
  intros i j r s Hij Hi Hj. apply (Hdist i j); [done| |].
  - by rewrite lookup_app_l by (by apply lookup_lt_Some in Hi).
  - by rewrite lookup_app_l by (by apply lookup_lt_Some in Hj).
Qed.

(** X5.  The row loop returns a result unchanged exactly when every row of
    it can be hashed and no two of its rows are equal. *)
Theorem collect_rows_identity_iff_distinct (items : list (list value)) :
  collect_rows items [] [] = Ok items
  ↔ Forall hashable_row items
    ∧ ∀ (i j : nat) r s, (i < j)%nat →
        items !! i = Some r → items !! j = Some s → tuple_eqb r s = false.
Proof.
  split; [|intros [??]; by apply collect_rows_distinct_id].
  intros Hid. split.
  - apply collect_rows_Ok. by exists items.
  - intros i j r s. by apply collect_rows_distinct with items.
Qed.

(** X6.  Removing duplicates twice is removing them once: the rows the
    loop returns pass through it unchanged. *)
Theorem collect_rows_idempotent (items rows : list (list value)) :
  collect_rows items [] [] = Ok rows → collect_rows rows [] [] = Ok rows.
Proof.
  intros Hrows. apply collect_rows_distinct_id.
  - apply (Forall_collect_rows _ items rows Hrows).
    apply collect_rows_Ok. by exists rows.
  - intros i j r s. by apply collect_rows_distinct with items.
Qed.

Lemma first_cells_Raised rows e :
  first_cells rows = Raised e ↔ e = IndexError ∧ [] ∈ rows.
Proof.
  induction rows as [|[|v r] rows IH]; cbn.
  - split; [done|]. by intros [_ ?%elem_of_nil].
  - split; [intros [= <-]|by intros [-> _]]. split; [done|]. by left.
  - destruct (first_cells rows) as [strs|e0]; cbn.
    + split; [done|]. intros [He [?|Hin]%elem_of_cons]; [done|].
      pose proof (proj2 IH (conj He Hin)) as Hc. discriminate Hc.
    + rewrite IH. split; [intros [? ?]; split; [done|by right]|].
      intros [He [?|Hin]%elem_of_cons]; done.
Qed.

Lemma serialize_rows_Raised columns rows e :
  serialize_rows columns rows = Raised e
  ↔ e = IndexError ∧ length columns = 1%nat ∧ [] ∈ rows.
Proof.
  unfold serialize_rows. destruct rows as [|row rows].
  { split; [done|]. by intros (_ & _ & ?%elem_of_nil). }
  destruct (decide (length columns = 1%nat)) as [Hone|Hmany].
  - destruct (first_cells (row :: rows)) as [strs|e0] eqn:Hfirst;
      cbn [mbind outcome_bind mret outcome_ret].
    + split; [done|]. intros (-> & _ & Hin).
      pose proof (proj2 (first_cells_Raised _ _) (conj eq_refl Hin)) as Hc.
      congruence.
    + apply first_cells_Raised in Hfirst as [-> Hin]. split.
      * by intros [= <-].
      * by intros (-> & _ & _).
  - split; [done|]. by intros (_ & ? & _).
Qed.

(** X7.  [execute_query] makes exactly one call, the execution of the
    query.  It raises in three cases only: the backend raised, and then it
    raises the same exception; a row holds a list or a dict, and then it
    raises [TypeError]; or every row can be hashed, the result has one
    column and a row kept has no cell, and then it raises [IndexError]. *)
Theorem execute_query_failures {W} (h : handler W) w question cypher e :
  (exec h (execute_query question cypher) w).2 = [Made (Execute cypher)]
  ∧ (exec h (execute_query question cypher) w).1.2
    = (h _ (Execute cypher) w).2
  ∧ ((exec h (execute_query question cypher) w).1.1 = Raised e
     ↔ (h _ (Execute cypher) w).1 = Raised e
       ∨ ∃ response,
           (h _ (Execute cypher) w).1 = Ok response
           ∧ ((e = TypeError
               ∧ Exists (λ item, ¬ hashable_row item) (cursor_rows response))
              ∨ (e = IndexError
                 ∧ length (get_column_names response) = 1%nat
                 ∧ ∃ rows,
                     collect_rows (cursor_rows response) [] [] = Ok rows
                     ∧ [] ∈ rows))).
Proof.
  unfold execute_query. exec_steps.
  destruct (h _ (Execute cypher) w) as [[response|e'] w1]; exec_steps.
  2:{ split; [done|]. split; [done|]. split; [intros [= ->]; by left|].
      intros [[= ->]|(? & ? & _)]; done. }
  destruct (collect_rows (cursor_rows response) [] []) as [rows|e1]
    eqn:Hrows; exec_steps.
  2:{ split; [done|]. split; [done|].
      destruct (proj1 (collect_rows_Raised _ _) Hrows) as [-> Hex]. split.
      - intros [= <-]. right. exists response. split; [done|]. by left.
      - intros [?|(? & [= <-] & [[-> _]|(_ & _ & ? & ? & _)])];
          [done|done|congruence]. }
  assert (¬ Exists (λ item, ¬ hashable_row item) (cursor_rows response))
    as Hnone.
  { intros Hex.
    pose proof (proj2 (collect_rows_Raised _ TypeError) (conj eq_refl Hex)).
    congruence. }
  destruct (serialize_rows (get_column_names response) rows)
    as [result_str|e2] eqn:Hser; exec_steps.
  - split; [done|]. split; [done|]. split; [done|].
    intros [?|(? & [= <-] & [[_ ?]|(-> & Hone & rows' & Hrows' & Hin)])];
      [done..|].
    rewrite Hrows in Hrows'. injection Hrows' as <-.
    pose proof (proj2 (serialize_rows_Raised _ _ IndexError)
                  (conj eq_refl (conj Hone Hin))).
    congruence.
  - split; [done|]. split; [done|].
    apply serialize_rows_Raised in Hser as (-> & Hone & Hin). split.
    + intros [= <-]. right. exists response. split; [done|]. right.
      split; [done|]. split; [done|]. by exists rows.
    + intros [?|(? & [= <-] & [[_ ?]|(-> & _)])]; done.
Qed.

Lemma first_occurrences_snoc items item :
  first_occurrences (items ++ [item])
  = first_occurrences items
    ++ (if existsb (tuple_eqb item) items then [] else [item]).
Proof.
  unfold first_occurrences. rewrite imap_app, omap_app. f_equal.
  - f_equal. apply imap_ext. intros i x Hi.
    by rewrite take_app_le by (apply lookup_lt_Some in Hi; lia).
  - cbn. rewrite Nat.add_0_r, take_app_length.
    by destruct (existsb _ items).
Qed.

Lemma collect_rows_first_occurrences items :
  Forall hashable_row items →
  collect_rows items [] [] = Ok (first_occurrences items).
Proof.
  induction items as [|item items IH] using rev_ind; intros Hhash; [done|].
  apply Forall_app in Hhash as [Hhash Hitem].
  rewrite Forall_singleton in Hitem.
  rewrite collect_rows_snoc, IH, (proj2 (hash_tuple_Ok item) Hitem) by done.
  cbn [mbind outcome_bind mret outcome_ret].
  rewrite first_occurrences_snoc.
  destruct (existsb _ items); by rewrite ?app_nil_r.
Qed.

(** X15.  For a result whose rows can all be hashed, [execute_query]
    serialises the first occurrences: the rows that equal no row returned
    before them, in the order the backend returned them, an equal row that
    comes later being dropped.  The raw rows ("a",1), ("b",2), ("a",1) give
    ("a",1), ("b",2). *)
Theorem execute_query_keeps_first_occurrences {W} (h : handler W) w w'
    question cypher response :
  h _ (Execute cypher) w = (Ok response, w') →
  Forall hashable_row (cursor_rows response) →
  exec h (execute_query question cypher) w
  = ((λ result_str,
        {| answer_question := question; answer := result_str |})
       <$> serialize_rows (get_column_names response)
             (first_occurrences (cursor_rows response)),
     w', [Made (Execute cypher)])
  ∧ first_occurrences
      [[VStr "a"; VInt 1]; [VStr "b"; VInt 2]; [VStr "a"; VInt 1]]
    = [[VStr "a"; VInt 1]; [VStr "b"; VInt 2]].
Proof.
  intros Hexec Hhash. split; [|reflexivity].
  unfold execute_query. exec_steps. rewrite Hexec. exec_steps.
  rewrite (collect_rows_first_occurrences _ Hhash). exec_steps.
  by destruct (serialize_rows _ _); exec_steps.
Qed.

(** ** More on the pipeline *)

(** X8.  When the generation service returns a query, [run] executes that
    query, hands the serialised rows to the synthesis service together with
    the question, and returns the query and the synthesised text, whatever
    that text is; these three calls are the only ones it makes. *)
Theorem run_with_query {W} (h : handler W) w w1 w2 w3 self question query
    response rows context r_answer :
  h _ (RAGText2Cypher (baml_schema self) question) w = (Ok (Some query), w1) →
  h _ (Execute query) w1 = (Ok response, w2) →
  collect_rows (cursor_rows response) [] [] = Ok rows →
  serialize_rows (get_column_names response) rows = Ok context →
  h _ (RAGAnswerQuestion question context) w2 = (Ok r_answer, w3) →
  exec h (run self question) w
  = (Ok {| rag_question := question; rag_cypher := query;
           rag_response := r_answer |},
     w3,
     [Made (RAGText2Cypher (baml_schema self) question);
      Made (Execute query);
      Made (RAGAnswerQuestion question context)]).
Proof.
  intros Hq Hexec Hrows Hser Hans. unfold run, execute_query. exec_steps.
  rewrite Hq. exec_steps. rewrite Hexec. exec_steps. rewrite Hrows.
  exec_steps. rewrite Hser. exec_steps. cbn [answer]. rewrite Hans.
  by exec_steps.
Qed.

Lemma run_with_query_witness :
  scripted (demo_script (Ok "")) _
    (RAGText2Cypher (baml_schema demo_rag) "Who gave the keynote?") ()
    = (Ok (Some "MATCH (s:Speaker) RETURN s.name"), ())
  ∧ scripted (demo_script (Ok "")) _
      (Execute "MATCH (s:Speaker) RETURN s.name") ()
    = (Ok {| get_column_names := ["s.name"];
             cursor_rows := [[VStr "Jane Doe"]] |}, ())
  ∧ collect_rows [[VStr "Jane Doe"]] [] [] = Ok [[VStr "Jane Doe"]]
  ∧ serialize_rows ["s.name"] [[VStr "Jane Doe"]] = Ok "Jane Doe"
  ∧ scripted (demo_script (Ok "")) _
      (RAGAnswerQuestion "Who gave the keynote?" "Jane Doe") ()
    = (Ok "Jane Doe gave the keynote.", ())
  ∧ exec (scripted (demo_script (Ok "")))
      (run demo_rag "Who gave the keynote?") ()
    = (Ok {| rag_question := "Who gave the keynote?";
             rag_cypher := "MATCH (s:Speaker) RETURN s.name";
             rag_response := "Jane Doe gave the keynote." |},
       (),
       [Made (RAGText2Cypher "schema" "Who gave the keynote?");
        Made (Execute "MATCH (s:Speaker) RETURN s.name");
        Made (RAGAnswerQuestion "Who gave the keynote?" "Jane Doe")]).
Proof.
  split_and!; [reflexivity..|].
  apply (run_with_query (scripted (demo_script (Ok ""))) () () () () demo_rag
           "Who gave the keynote?" "MATCH (s:Speaker) RETURN s.name"
           {| get_column_names := ["s.name"];
              cursor_rows := [[VStr "Jane Doe"]] |}
           [[VStr "Jane Doe"]] "Jane Doe" "Jane Doe gave the keynote.");
    reflexivity.
Defined.

(** X9.  [run] stops at the first call that raises and raises the same
    exception: after a failure of the generation service the backend is not
    queried; after a failure of the backend no answer is synthesised. *)
Theorem run_stops_at_first_failure {W} (h : handler W) w self question e :
  (∀ w1,
     h _ (RAGText2Cypher (baml_schema self) question) w = (Raised e, w1) →
     exec h (run self question) w
     = (Raised e, w1, [Made (RAGText2Cypher (baml_schema self) question)]))
  ∧ (∀ w1 w2 query,
       h _ (RAGText2Cypher (baml_schema self) question) w
         = (Ok (Some query), w1) →
       h _ (Execute query) w1 = (Raised e, w2) →
       exec h (run self question) w
       = (Raised e, w2,
          [Made (RAGText2Cypher (baml_schema self) question);
           Made (Execute query)])).
Proof.
  split.
  - intros w1 Hq. unfold run. exec_steps. rewrite Hq. by exec_steps.
  - intros w1 w2 query Hq Hexec. unfold run, execute_query. exec_steps.
    rewrite Hq. exec_steps. rewrite Hexec. by exec_steps.
Qed.

Lemma run_stops_at_first_failure_witness :
  scripted failing_backend_script _
    (RAGText2Cypher (baml_schema demo_rag) "Who gave the keynote?") ()
    = (Ok (Some "MATCH (s:Speaker) RETURN s.name"), ())
  ∧ scripted failing_backend_script _
      (Execute "MATCH (s:Speaker) RETURN s.name") ()
    = (Raised (ExceptionOther "RuntimeError"), ())
  ∧ exec (scripted failing_backend_script)
      (run demo_rag "Who gave the keynote?") ()
    = (Raised (ExceptionOther "RuntimeError"), (),
       [Made (RAGText2Cypher "schema" "Who gave the keynote?");
        Made (Execute "MATCH (s:Speaker) RETURN s.name")]).
Proof.
  split_and!; [reflexivity..|].
  apply (proj2 (run_stops_at_first_failure (scripted failing_backend_script)
                  () demo_rag "Who gave the keynote?"
                  (ExceptionOther "RuntimeError")) () ());
    reflexivity.
Defined.

(** ** More on loading the questions *)

Lemma row_get_strip_raised row key e :
  row_get_strip row key = Raised e ↔ e = AttributeError ∧ row !! key = Some None.
Proof.
  unfold row_get_strip. destruct (row !! key) as [[cell|]|].
  - split; [done|by intros [_ ?]].
  - split; [by intros [= <-]|by intros [-> _]].
  - split; [done|by intros [_ ?]].
Qed.

Lemma load_rows_raised reader i acc e :
  load_rows reader i acc = Raised e
  ↔ e = AttributeError
    ∧ ∃ row, row ∈ reader
             ∧ (row !! "Question" = Some None
                ∨ row !! "Baseline answer" = Some None).
Proof.
  revert i acc. induction reader as [|row reader IH]; intros i acc.
  { cbn. split; [done|]. by intros (_ & row & ?%elem_of_nil & _). }
  cbn [load_rows].
  destruct (row_get_strip row "Question") as [question|e1] eqn:Hq.
  2:{ cbn. apply row_get_strip_raised in Hq as [-> Hq]. split.
      - intros [= <-]. split; [done|]. exists row. split; [by left|by left].
      - by intros [-> _]. }
  destruct (row_get_strip row "Baseline answer") as [baseline|e2] eqn:Hb.
  2:{ cbn. apply row_get_strip_raised in Hb as [-> Hb]. split.
      - intros [= <-]. split; [done|]. exists row. split; [by left|by right].
      - by intros [-> _]. }
  cbn [mbind outcome_bind]. rewrite IH. split.
  - intros (-> & row' & Hin & Hnone). split; [done|]. exists row'.
    split; [by right|done].
  - intros (-> & row' & [->|Hin]%elem_of_cons & Hnone).
    + unfold row_get_strip in Hq, Hb. by destruct Hnone as [Hn|Hn];
        rewrite Hn in *.
    + split; [done|]. by exists row'.
Qed.

(** X10.  When the reader yields all the rows of the file (no I/O, decoding
    or CSV error ends the reading), loading fails exactly when some row
    binds the question or the baseline answer to [None] (a row shorter than
    the header), and then with [AttributeError]; a header that is absent
    altogether is no failure. *)
Theorem load_questions_fails_on_short_row {W} (h : handler W) w w' path
    reader e :
  h _ (CsvDictReader path) w = (Ok reader, w') →
  (exec h (load_questions path) w).1.1 = Raised e
  ↔ e = AttributeError
    ∧ ∃ row, row ∈ reader
             ∧ (row !! "Question" = Some None
                ∨ row !! "Baseline answer" = Some None).
Proof.
  intros Hcsv. unfold load_questions. exec_steps. rewrite Hcsv. exec_steps.
  apply load_rows_raised.
Qed.

Lemma load_rows_ids reader i acc questions :
  load_rows reader i acc = Ok questions →
  ∃ new,
    questions = acc ++ new
    ∧ StronglySorted Z.lt (q_id <$> new)
    ∧ Forall (λ q, i ≤ q_id q < i + Z.of_nat (length reader)) new
    ∧ (length new ≤ length reader)%nat.
Proof.
  revert i acc. induction reader as [|row reader IH]; intros i acc Hload.
  { cbn in Hload. injection Hload as <-. exists []. rewrite app_nil_r.
    split_and!; [done|constructor|constructor|done]. }
  cbn [load_rows] in Hload.
  destruct (row_get_strip row "Question") as [question|?]; [|done].
  destruct (row_get_strip row "Baseline answer") as [baseline|?]; [|done].
  cbn [mbind outcome_bind] in Hload.
  apply IH in Hload as (new & -> & Hsorted & Hrange & Hlen).
  assert (Forall (λ q, i ≤ q_id q < i + Z.of_nat (length (row :: reader)))
            new) as Hrange'.
  { eapply Forall_impl; [done|]. cbn. intros q ?. lia. }
  case_decide.
  - exists new. split_and!; [done..|]. cbn. lia.
  - eexists (_ :: new). rewrite <-app_assoc. split; [done|]. split_and!.
    + cbn. constructor; [done|]. apply Forall_fmap.
      eapply Forall_impl; [exact Hrange|]. cbn. intros q ?. lia.
    + constructor; [cbn; lia|done].
    + cbn. lia.
Qed.

(** X11.  The questions are returned in the order of their rows: their ids
    increase strictly, lie between 1 and the number of rows, and there are
    no more questions than rows. *)
Theorem load_questions_ids_increase {W} (h : handler W) w w' path reader
    questions t :
  h _ (CsvDictReader path) w = (Ok reader, w') →
  exec h (load_questions path) w = (Ok questions, w', t) →
  StronglySorted Z.lt (q_id <$> questions)
  ∧ Forall (λ q, 1 ≤ q_id q ≤ Z.of_nat (length reader)) questions
  ∧ (length questions ≤ length reader)%nat.
Proof.
  intros Hcsv. unfold load_questions. exec_steps. rewrite Hcsv. exec_steps.
  destruct (load_rows reader 1 []) as [qs|?] eqn:Hload; [|done].
  intros [= <- <-].
  apply load_rows_ids in Hload as (new & -> & Hsorted & Hrange & Hlen).
  split_and!; [done| |done].
  eapply Forall_impl; [exact Hrange|]. cbn. intros q ?. lia.
Qed.

Lemma load_rows_no_question reader i acc :
  Forall (λ row : csv_row,
            row !! "Question" = None ∧ row !! "Baseline answer" ≠ Some None)
    reader →
  load_rows reader i acc = Ok acc.
Proof.
  intros Hrows. revert i. induction Hrows as [|row reader [Hq Hb] _ IH];
    intros i; [done|].
  cbn [load_rows].
  assert (row_get_strip row "Question" = Ok "") as ->.
  { unfold row_get_strip. by rewrite Hq. }
  assert (∃ baseline, row_get_strip row "Baseline answer" = Ok baseline)
    as [baseline ->].
  { unfold row_get_strip.
    destruct (row !! "Baseline answer") as [[cell|]|]; [by eexists|done|].
    by eexists. }
  cbn [mbind outcome_bind]. rewrite decide_True by done. apply IH.
Qed.

(** X12.  A dataset without a "Question" column loads as the empty list of
    questions, without any failure. *)
Theorem load_questions_without_question_column {W} (h : handler W) w w' path
    reader :
  h _ (CsvDictReader path) w = (Ok reader, w') →
  Forall (λ row : csv_row,
            row !! "Question" = None ∧ row !! "Baseline answer" ≠ Some None)
    reader →
  exec h (load_questions path) w = (Ok [], w', [Made (CsvDictReader path)]).
Proof.
  intros Hcsv Hrows. unfold load_questions. exec_steps. rewrite Hcsv.
  exec_steps. by rewrite (load_rows_no_question reader 1 [] Hrows).
Qed.

(** ** More on the judge *)

Lemma decode_error_raised {A} (o : option A) e :
  decode_error o = Raised e → e = JSONDecodeError ∨ e = ValueError.
Proof. destruct o; [done|]. intros [= <-]. by left. Qed.

(** Case analysis on the term a function body scrutinises first. *)
Ltac head_match :=
  lazymatch goal with
  | |- (match ?x with _ => _ end) = _ → _ => destruct x
  end.

Lemma match_number_raised s number r e :
  match_number s = Some (number, r) → number = Raised e →
  e = JSONDecodeError ∨ e = ValueError.
Proof.
  unfold match_number. intros Hm ->. right. revert Hm.
  repeat (first [head_match | progress unfold mbind, option_bind]);
    by intros [= <-].
Qed.

Ltac scan_step IHscan IHobject IHarray :=
  lazymatch goal with
  | |- Ok _ = Raised _ → _ => done
  | |- Raised _ = Raised _ → _ => intros [= <-]; by left
  | |- scan_once _ _ = Raised _ → _ => apply IHscan
  | |- parse_object _ _ _ = Raised _ → _ => apply IHobject
  | |- parse_array _ _ _ = Raised _ → _ => apply IHarray
  | |- decode_error _ = Raised _ → _ => apply decode_error_raised
  | |- mbind _ ?x = Raised _ → _ =>
      let H := fresh "H" in
      destruct x as [?|?] eqn:H; cbn [mbind outcome_bind];
      [|intros [= <-];
       first [solve [eauto using match_number_raised, decode_error_raised]
             | revert H]]
  | |- (match ?x with _ => _ end) = _ → _ => destruct x eqn:?
  end.

(** The scanner raises [JSONDecodeError], or [ValueError] for an integer
    literal that is too long. *)
Lemma scan_raised fuel :
  (∀ s e, scan_once fuel s = Raised e → e = JSONDecodeError ∨ e = ValueError)
  ∧ (∀ s pairs e, parse_object fuel s pairs = Raised e →
       e = JSONDecodeError ∨ e = ValueError)
  ∧ (∀ s values e, parse_array fuel s values = Raised e →
       e = JSONDecodeError ∨ e = ValueError).
Proof.
  induction fuel as [|fuel (IHscan & IHobject & IHarray)].
  { split_and!; intros; simplify_eq/=; by left. }
  split_and!.
  - intros s e. simpl. repeat scan_step IHscan IHobject IHarray.
  - intros s pairs e. simpl. repeat scan_step IHscan IHobject IHarray.
  - intros s values e. simpl. repeat scan_step IHscan IHobject IHarray.
Qed.

Lemma loads_raised text e :
  loads text = Raised e → e = JSONDecodeError ∨ e = ValueError.
Proof.
  unfold loads.
  destruct (scan_once _ _) as [[obj rest]|e'] eqn:Hscan;
    cbn [mbind outcome_bind].
  - destruct (skip_ws rest); [done|]. intros [= <-]. by left.
  - intros [= <-]. by eapply (proj1 (scan_raised _)).
Qed.

Lemma getitem_raised x key e :
  getitem x key = Raised e → e = KeyError ∨ e = TypeError.
Proof. unfold getitem. repeat case_match; naive_solver. Qed.

Lemma getitem_Ok_dict x key v : getitem x key = Ok v → ∃ d, x = JDict d.
Proof. destruct x; try done. by eexists. Qed.

Lemma int_raised x e :
  int x = Raised e → e = TypeError ∨ e = ValueError ∨ e = OverflowError.
Proof.
  destruct x as [| | |f|s| |]; cbn [int]; try naive_solver.
  - unfold float_to_int. repeat case_match; naive_solver.
  - unfold int_of_str. repeat case_match; naive_solver.
Qed.

Lemma parse_judge_json_raised text e :
  parse_judge_json text = Raised e →
  e = JSONDecodeError ∨ e = KeyError ∨ e = ValueError ∨ e = TypeError
  ∨ e = OverflowError.
Proof.
  unfold parse_judge_json.
  destruct (loads text) as [parsed|e1] eqn:Hloads; cbn.
  2:{ intros [= <-]. destruct (loads_raised _ _ Hloads) as [->| ->]; auto. }
  destruct (getitem parsed "score") as [raw|e2] eqn:Hitem; cbn.
  2:{ intros [= <-].
      destruct (getitem_raised _ _ _ Hitem) as [->| ->]; auto 6. }
  destruct (int raw) as [score|e3] eqn:Hint; cbn.
  2:{ intros [= <-].
      destruct (int_raised _ _ Hint) as [->|[->| ->]]; auto 6. }
  apply getitem_Ok_dict in Hitem as [d ->]. done.
Qed.

(** X13.  The exceptions the [except] clause lists do not leave the reading
    of a judge response: a [JSONDecodeError] or a [KeyError] never does,
    and for a response in ASCII a [ValueError] never does either; each is
    answered by the scan of the raw text. *)
Theorem judge_parse_never_raises_listed (text : string) (e : exn) :
  judge_parse text = Raised e →
  e ≠ JSONDecodeError ∧ e ≠ KeyError ∧ (isascii text = true → e ≠ ValueError).
Proof.
  unfold judge_parse.
  destruct (parse_judge_json text) as [result|e'] eqn:Hparse; [done|].
  apply parse_judge_json_raised in Hparse.
  destruct (judge_except_matches e') eqn:Hmatch.
  - by destruct (first_score_digit text).
  - intros [= <-].
    destruct Hparse as [->|[->|[->|[->| ->]]]]; done.
Qed.

(** X14.  A response that is a JSON object whose "score" converts with
    [int()] (an integer, a boolean, a float, a numeric string) is read as
    that integer, with the value under "reasoning", or the empty string
    when the object has none. *)
Theorem judge_parse_object (text : string) d raw score :
  loads text = Ok (JDict d) →
  dict_lookup d "score" = Some raw →
  int raw = Ok score →
  judge_parse text
  = Ok (score, default (JStr "") (dict_lookup d "reasoning")).
Proof.
  intros Hloads Hraw Hint. unfold judge_parse, parse_judge_json.
  rewrite Hloads. cbn. rewrite Hraw. cbn. by rewrite Hint.
Qed.

Lemma judge_parse_never_raises_listed_witness :
  judge_parse (dq "{'score': 1e999}") = Raised OverflowError
  ∧ OverflowError ≠ JSONDecodeError ∧ OverflowError ≠ KeyError
  ∧ (isascii (dq "{'score': 1e999}") = true → OverflowError ≠ ValueError).
Proof.
  split; [reflexivity|].
  apply (judge_parse_never_raises_listed (dq "{'score': 1e999}")).
  reflexivity.
Defined.

Lemma judge_parse_object_witness :
  loads (dq "{'score': ' 4 ', 'reasoning': 'fine'}")
    = Ok (JDict [("score", JStr " 4 "); ("reasoning", JStr "fine")])
  ∧ int (JStr " 4 ") = Ok 4
  ∧ judge_parse (dq "{'score': ' 4 ', 'reasoning': 'fine'}")
    = Ok (4, JStr "fine").
Proof.
  split; [reflexivity|]. split; [reflexivity|].
  apply (judge_parse_object (dq "{'score': ' 4 ', 'reasoning': 'fine'}")
           [("score", JStr " 4 "); ("reasoning", JStr "fine")]
           (JStr " 4 ") 4); reflexivity.
Defined.

Lemma first_score_digit_first_witness :
  isascii "Score: 0, 9, then 3 and 4" = true
  ∧ first_score_digit "Score: 0, 9, then 3 and 4" = Some 3
  ∧ ∃ before ch after,
      "Score: 0, 9, then 3 and 4" = before +:+ String ch after
      ∧ digit_of ch = Some 3 ∧ 1 ≤ 3 ≤ 5
      ∧ first_score_digit before = None.
Proof.
  split; [reflexivity|]. split; [reflexivity|].
  apply (proj1 (first_score_digit_first "Score: 0, 9, then 3 and 4" 3
                  eq_refl)).
  reflexivity.
Defined.

Lemma judge_parse_score_source_witness :
  judge_parse (dq "{'score': 7, 'reasoning': 'great'}")
    = Ok (7, JStr "great")
  ∧ (1 ≤ 7 ≤ 5
     ∨ ∃ parsed raw,
         loads (dq "{'score': 7, 'reasoning': 'great'}") = Ok parsed
         ∧ getitem parsed "score" = Ok raw ∧ int raw = Ok 7).
Proof.
  split; [reflexivity|].
  apply (judge_parse_score_source (dq "{'score': 7, 'reasoning': 'great'}")
           7 (JStr "great")).
  reflexivity.
Defined.

(** ** More on the evaluation loop *)

Lemma exec_bind_Ok_inv {W A B} (h : handler W) (p : prog A) (f : A → prog B)
    w b w' t :
  exec h (p ≫= f) w = (Ok b, w', t) →
  ∃ a w1 t1 t2,
    exec h p w = (Ok a, w1, t1) ∧ exec h (f a) w1 = (Ok b, w', t2)
    ∧ t = t1 ++ t2.
Proof.
  rewrite exec_bind. destruct (exec h p w) as [[[a|e] w1] t1]; [|done].
  destruct (exec h (f a) w1) as [[o w2] t2] eqn:Hf. intros [= -> -> <-].
  by exists a, w1, t1, t2.
Qed.

(** X16.  A question whose pipeline answer is neither empty nor "N/A" is
    sent to the judge once, with the prompt built from the question, the
    baseline and that answer; the record carries the judge's score and
    reasoning, the label looked up for the score ("unknown" when there is
    none), the pipeline's query and answer, and no error. *)
Theorem evaluate_question_judged {W} (h : handler W) w w1 w2 t1 graph_rag q
    result text score reasoning :
  exec h (run graph_rag (q_question q)) w = (Ok result, w1, t1) →
  rag_response result ≠ "" →
  rag_response result ≠ "N/A" →
  h _ (GenerateContent
         (judge_prompt (q_question q) (q_baseline q) (rag_response result)))
    w1 = (Ok text, w2) →
  judge_parse text = Ok (score, reasoning) →
  exec h (evaluate_question graph_rag q) w
  = (Ok {| r_id := q_id q; r_question := q_question q;
           r_baseline := q_baseline q; r_cypher := rag_cypher result;
           r_response := rag_response result; r_score := score;
           r_label := default "unknown" (SCORE_LABELS !! score);
           r_reasoning := reasoning; r_error := None |},
     w2,
     t1 ++ [Made (GenerateContent
                    (judge_prompt (q_question q) (q_baseline q)
                       (rag_response result)))]).
Proof.
  intros Hrun Hne Hna Hjudge Hparse.
  unfold evaluate_question, judge_response. exec_steps. rewrite Hrun.
  exec_steps. cbn [truthy].
  rewrite (bool_decide_eq_false_2 _ Hne), (bool_decide_eq_false_2 _ Hna).
  cbn [orb]. exec_steps. rewrite Hjudge. exec_steps. rewrite Hparse.
  exec_steps. by rewrite !app_nil_r.
Qed.

(** X17.  An exception of the pipeline that is not an [Exception] (such as
    a keyboard interrupt) is not turned into a record: it leaves the loop,
    and no traceback is rendered for it. *)
Theorem base_exception_leaves_the_loop {W} (h : handler W) w w1 t1 graph_rag
    q e rest results :
  exec h (run graph_rag (q_question q)) w = (Raised e, w1, t1) →
  is_Exception e = false →
  exec h (evaluate_question graph_rag q) w = (Raised e, w1, t1)
  ∧ exec h (evaluation_loop graph_rag (q :: rest) results) w
    = (Raised e, w1, t1).
Proof.
  intros Hrun Hbase.
  assert (exec h (evaluate_question graph_rag q) w = (Raised e, w1, t1))
    as Hq.
  { unfold evaluate_question. exec_steps. rewrite Hrun. exec_steps.
    rewrite Hbase. by exec_steps. }
  split; [done|]. cbn [evaluation_loop]. by rewrite exec_bind, Hq.
Qed.

Lemma evaluate_question_record {W} (h : handler W) w w' t graph_rag q r :
  exec h (evaluate_question graph_rag q) w = (Ok r, w', t) →
  (r_id r = q_id q ∧ r_question r = q_question q
   ∧ r_baseline r = q_baseline q)
  ∧ r_label r = default "unknown" (SCORE_LABELS !! r_score r)
  ∧ (r_error r ≠ None →
     r_score r = 1 ∧ r_label r = "no_answer" ∧ r_response r = ""
     ∧ r_cypher r = "").
Proof.
  unfold evaluate_question.
  intros (((response & cypher) & error) & w1 & t1 & t2 & Htry & Hrest & _)
    %exec_bind_Ok_inv.
  apply exec_bind_Ok_inv in Hrest
    as ((score & reasoning) & w2 & t3 & t4 & Hscore & Hret & _).
  rewrite exec_ret in Hret. injection Hret as <- _ _.
  cbn [r_id r_question r_baseline r_label r_score r_error r_response
       r_cypher].
  split; [done|]. split; [done|]. intros Herr.
  assert (score = 1 ∧ response = "" ∧ cypher = "") as (-> & -> & ->);
    [|done].
  revert Htry. rewrite exec_try_except, exec_bind.
  destruct (exec h (run graph_rag (q_question q)) w)
    as [[[result|e] w3] t5]; exec_steps.
  { intros [= _ _ <- _ _]. done. }
  destruct (is_Exception e); [|done]. exec_steps.
  destruct (h _ (FormatExc e) w3) as [[tb|e'] w4]; exec_steps; [|done].
  intros [= <- <- <- <- _]. revert Hscore.
  destruct (truthy (Some tb)); exec_steps.
  - destruct (last_line _) as [line|?]; exec_steps; [|done].
    by intros [= <- _].
  - cbn. exec_steps. by intros [= <- _].
Qed.

Lemma evaluation_loop_records {W} (h : handler W) graph_rag questions acc w
    results w' t :
  exec h (evaluation_loop graph_rag questions acc) w = (Ok results, w', t) →
  ∃ new,
    results = acc ++ new
    ∧ Forall2 (λ q r,
                 ∃ w0 w1 t0,
                   exec h (evaluate_question graph_rag q) w0 = (Ok r, w1, t0))
        questions new.
Proof.
  revert acc w t. induction questions as [|q questions IH]; intros acc w t.
  { cbn. intros [= <- _ _]. exists []. by rewrite app_nil_r. }
  cbn [evaluation_loop].
  intros (r & w1 & t1 & t2 & Hq & Hrest & _)%exec_bind_Ok_inv.
  apply IH in Hrest as (new & -> & Hnew).
  exists (r :: new). rewrite <-app_assoc. split; [done|].
  constructor; [|done]. by exists w, w1, t1.
Qed.

(** X18.  A run of the loop that completes returns one record per
    question, in the order of the questions, each with the id, the text and
    the baseline of its question. *)
Theorem evaluation_loop_keeps_order {W} (h : handler W) graph_rag questions w
    results w' t :
  exec h (evaluation_loop graph_rag questions []) w = (Ok results, w', t) →
  Forall2 (λ q r,
             r_id r = q_id q ∧ r_question r = q_question q
             ∧ r_baseline r = q_baseline q)
    questions results.
Proof.
  intros (new & -> & Hnew)%evaluation_loop_records.
  eapply Forall2_impl; [exact Hnew|].
  intros q r (w0 & w1 & t0 & Hq).
  by apply evaluate_question_record in Hq as (Hfields & _).
Qed.

(** X19.  In every record of a completed run the label is the one looked
    up for the score, "unknown" when the score has none; and a record that
    carries an error has score 1, label no_answer, and neither query nor
    answer. *)
Theorem evaluation_records_are_consistent {W} (h : handler W) graph_rag
    questions w results w' t :
  exec h (evaluation_loop graph_rag questions []) w = (Ok results, w', t) →
  Forall (λ r,
            r_label r = default "unknown" (SCORE_LABELS !! r_score r)
            ∧ (r_error r ≠ None →
               r_score r = 1 ∧ r_label r = "no_answer" ∧ r_response r = ""
               ∧ r_cypher r = ""))
    results.
Proof.
  intros (new & -> & Hnew)%evaluation_loop_records. cbn [app].
  induction Hnew as [|q r qs rs (w0 & w1 & t0 & Hq) _ IH]; constructor;
    [|done].
  by apply evaluate_question_record in Hq as (_ & ? & ?).
Qed.

Lemma initial_label_count label :
  default 0
    ((list_to_map ((λ kv, (kv.2, 0)) <$> map_to_list SCORE_LABELS)
        : gmap string Z) !! label) = 0.
Proof.
  destruct (_ !! label) as [z|] eqn:Hz; [|done].
  apply elem_of_list_to_map_2 in Hz.
  by apply list_elem_of_fmap in Hz as (kv & [= _ ->] & _).
Qed.

Lemma label_counts_step (results : list eval_record) (m : gmap string Z)
    label :
  default 0
    (foldl (λ counts r,
              <[ r_label r := default 0 (counts !! r_label r) + 1 ]> counts)
       m results !! label)
  = default 0 (m !! label) + count_label results label.
Proof.
  unfold count_label. revert m.
  induction results as [|r results IH]; intros m; cbn [foldl].
  { rewrite filter_nil. cbn [length]. lia. }
  rewrite IH. destruct (decide (r_label r = label)) as [Heq|Hne].
  - rewrite filter_cons_True by done. rewrite Heq, lookup_insert_eq.
    cbn [default from_option id length]. lia.
  - rewrite filter_cons_False by done. by rewrite lookup_insert_ne.
Qed.

Lemma label_counts_lookup results label :
  default 0 (label_counts results !! label) = count_label results label.
Proof.
  unfold label_counts.
  by rewrite label_counts_step, initial_label_count, Z.add_0_l.
Qed.

(** X20.  The printed summary has one row per label of [SCORE_LABELS], in
    ascending order of score, and the count of a row is the number of
    records that carry its label; records labelled "unknown" are in no
    row. *)
Theorem label_summary_counts (results : list eval_record) :
  label_summary results
  = (λ kv : Z * string, (kv.1, kv.2, count_label results kv.2))
      <$> [(1, "no_answer"); (2, "wrong"); (3, "partial");
           (4, "acceptable"); (5, "correct")].
Proof.
  unfold label_summary.
  set (l := sorted _ _ _). vm_compute in l. subst l.
  apply list_fmap_ext. intros _ kv _. by rewrite label_counts_lookup.
Qed.

Lemma exec_bind_calls {W A B} (P : made → Prop) (h : handler W)
    (p : prog A) (f : A → prog B) w :
  Forall P (exec h p w).2 →
  (∀ a w1, Forall P (exec h (f a) w1).2) →
  Forall P (exec h (p ≫= f) w).2.
Proof.
  intros Hp Hf. rewrite exec_bind.
  destruct (exec h p w) as [[[a|e] w1] t1]; [|done].
  specialize (Hf a w1). destruct (exec h (f a) w1) as [[o w2] t2].
  by apply Forall_app.
Qed.

Lemma run_calls {W} (h : handler W) w graph_rag question :
  Forall (loop_call graph_rag) (exec h (run graph_rag question) w).2.
Proof.
  unfold run, execute_query. exec_steps.
  destruct (h _ (RAGText2Cypher (baml_schema graph_rag) question) w)
    as [[[query|]|e] w1]; exec_steps; [|by repeat constructor..].
  destruct (h _ (Execute query) w1) as [[response|e] w2]; exec_steps;
    [|by repeat constructor].
  destruct (collect_rows _ _ _) as [rows|e]; exec_steps;
    [|by repeat constructor].
  destruct (serialize_rows _ _) as [result_str|e]; exec_steps;
    [|by repeat constructor].
  destruct (h _ (RAGAnswerQuestion _ _) w2) as [[r|e] w3]; exec_steps;
    by repeat constructor.
Qed.

Lemma evaluate_question_calls {W} (h : handler W) w graph_rag q :
  Forall (loop_call graph_rag) (exec h (evaluate_question graph_rag q) w).2.
Proof.
  unfold evaluate_question. apply exec_bind_calls.
  - rewrite exec_try_except, exec_bind.
    pose proof (run_calls h w graph_rag (q_question q)) as Hrun.
    destruct (exec h (run graph_rag (q_question q)) w)
      as [[[result|e] w1] t1]; exec_steps; [by rewrite app_nil_r|].
    destruct (is_Exception e); [|done]. exec_steps.
    destruct (h _ (FormatExc e) w1) as [[tb|e'] w2]; exec_steps;
      apply Forall_app; by repeat constructor.
  - intros [[response cypher] error] w1. apply exec_bind_calls.
    + destruct (truthy error).
      * exec_steps. by destruct (last_line _); exec_steps.
      * destruct (_ || _); [by exec_steps|].
        unfold judge_response. exec_steps.
        destruct (h _ (GenerateContent _) w1) as [[text|e] w2]; exec_steps;
          [|by repeat constructor].
        destruct (judge_parse text); by repeat constructor.
    + intros [score reasoning] w2. by exec_steps.
Qed.

(** X21.  Whatever the services answer, the loop calls nothing but the
    query generation, the query execution, the answer synthesis, the judge
    and the traceback renderer: it never introspects the backend or reads
    the dataset again, and every query generation receives the schema text
    the pipeline was built with. *)
Theorem evaluation_loop_calls {W} (h : handler W) w graph_rag questions
    results :
  Forall (loop_call graph_rag)
    (exec h (evaluation_loop graph_rag questions results) w).2.
Proof.
  revert results w. induction questions as [|q questions IH];
    intros results w; [by constructor|].
  cbn [evaluation_loop]. apply exec_bind_calls.
  - apply evaluate_question_calls.
  - intros record w1. apply IH.
Qed.

(** ** More statements at concrete runs *)

Lemma GraphRAG_init_raises_backend_errors_witness :
  (exec broken_catalog GraphRAG_init ()).1.1
    = Raised (ExceptionOther "RuntimeError")
  ∧ ∃ w0 w1,
      broken_catalog _ GetNodeTableNames w0
        = (Raised (ExceptionOther "RuntimeError"), w1)
      ∨ broken_catalog _ GetRelTableNames w0
        = (Raised (ExceptionOther "RuntimeError"), w1)
      ∨ ∃ stmt, broken_catalog _ (ExecuteTableInfo stmt) w0
                = (Raised (ExceptionOther "RuntimeError"), w1).
Proof.
  split; [reflexivity|].
  apply (GraphRAG_init_raises_backend_errors broken_catalog ()). reflexivity.
Defined.

Lemma collect_rows_identity_iff_distinct_witness :
  collect_rows [[VInt 1]; [VStr "1"]] [] [] = Ok [[VInt 1]; [VStr "1"]]
  ∧ tuple_eqb [VInt 1] [VStr "1"] = false.
Proof.
  split; [reflexivity|].
  apply (proj2 (proj1 (collect_rows_identity_iff_distinct
                         [[VInt 1]; [VStr "1"]]) eq_refl) 0%nat 1%nat);
    [lia|reflexivity|reflexivity].
Defined.

Lemma collect_rows_idempotent_witness :
  collect_rows [[VInt 1]; [VBool true]; [VStr "a"]] [] []
    = Ok [[VInt 1]; [VStr "a"]]
  ∧ collect_rows [[VInt 1]; [VStr "a"]] [] [] = Ok [[VInt 1]; [VStr "a"]].
Proof.
  split; [reflexivity|].
  apply (collect_rows_idempotent [[VInt 1]; [VBool true]; [VStr "a"]]).
  reflexivity.
Defined.

Lemma execute_query_failures_witness :
  (scripted (cursor_script node_cursor) _
     (Execute "MATCH (s:Speaker) RETURN s") ()).1
    = Ok node_cursor
  ∧ Exists (λ item, ¬ hashable_row item) (cursor_rows node_cursor)
  ∧ (exec (scripted (cursor_script node_cursor))
       (execute_query "Who?" "MATCH (s:Speaker) RETURN s") ()).1.1
    = Raised TypeError.
Proof.
  assert (Exists (λ item, ¬ hashable_row item) (cursor_rows node_cursor))
    as Hex by (left; discriminate).
  split; [reflexivity|]. split; [exact Hex|].
  apply (proj2 (proj2 (proj2 (execute_query_failures
                                (scripted (cursor_script node_cursor)) ()
                                "Who?" "MATCH (s:Speaker) RETURN s"
                                TypeError)))).
  right. exists node_cursor. split; [reflexivity|]. left. by split.
Defined.

Lemma execute_query_keeps_first_occurrences_witness :
  scripted (cursor_script repeated_cursor) _ (Execute "MATCH ...") ()
    = (Ok repeated_cursor, ())
  ∧ Forall hashable_row (cursor_rows repeated_cursor)
  ∧ exec (scripted (cursor_script repeated_cursor))
      (execute_query "Who?" "MATCH ...") ()
    = (Ok {| answer_question := "Who?";
             answer := "letter: a | rank: 1" +:+ NL +:+ "letter: b | rank: 2" |},
       (), [Made (Execute "MATCH ...")]).
Proof.
  assert (Forall hashable_row (cursor_rows repeated_cursor)) as Hhash
    by (by repeat constructor).
  split; [reflexivity|]. split; [exact Hhash|].
  exact (proj1 (execute_query_keeps_first_occurrences
                  (scripted (cursor_script repeated_cursor)) () () "Who?"
                  "MATCH ..." repeated_cursor eq_refl Hhash)).
Defined.

Lemma load_questions_fails_on_short_row_witness :
  scripted (csv_script short_rows) _ (CsvDictReader QA_CSV) ()
    = (Ok short_rows, ())
  ∧ (exec (scripted (csv_script short_rows)) (load_questions QA_CSV) ()).1.1
    = Raised AttributeError.
Proof.
  split; [reflexivity|].
  apply (proj2 (load_questions_fails_on_short_row
                  (scripted (csv_script short_rows)) () () QA_CSV short_rows
                  AttributeError eq_refl)).
  split; [reflexivity|]. eexists. split; [by left|]. right. reflexivity.
Defined.

Lemma load_questions_ids_increase_witness :
  scripted (csv_script gap_rows) _ (CsvDictReader QA_CSV) ()
    = (Ok gap_rows, ())
  ∧ exec (scripted (csv_script gap_rows)) (load_questions QA_CSV) ()
    = (Ok gap_questions, (), [Made (CsvDictReader QA_CSV)])
  ∧ StronglySorted Z.lt (q_id <$> gap_questions)
  ∧ Forall (λ q, 1 ≤ q_id q ≤ Z.of_nat (length gap_rows)) gap_questions
  ∧ (length gap_questions ≤ length gap_rows)%nat.
Proof.
  split; [reflexivity|]. split; [reflexivity|].
  apply (load_questions_ids_increase (scripted (csv_script gap_rows)) () ()
           QA_CSV gap_rows gap_questions [Made (CsvDictReader QA_CSV)]);
    reflexivity.
Defined.

Lemma load_questions_without_question_column_witness :
  scripted (csv_script headerless_rows) _ (CsvDictReader QA_CSV) ()
    = (Ok headerless_rows, ())
  ∧ exec (scripted (csv_script headerless_rows)) (load_questions QA_CSV) ()
    = (Ok [], (), [Made (CsvDictReader QA_CSV)]).
Proof.
  split; [reflexivity|].
  apply (load_questions_without_question_column
           (scripted (csv_script headerless_rows)) () () QA_CSV
           headerless_rows eq_refl).
  constructor; [|constructor]. split; [reflexivity|discriminate].
Defined.

Lemma evaluate_question_judged_witness :
  exec (scripted (demo_script (Ok demo_verdict)))
    (run demo_rag (q_question demo_question)) ()
    = (Ok {| rag_question := "Who gave the keynote?";
             rag_cypher := "MATCH (s:Speaker) RETURN s.name";
             rag_response := "Jane Doe gave the keynote." |},
       (),
       [Made (RAGText2Cypher "schema" "Who gave the keynote?");
        Made (Execute "MATCH (s:Speaker) RETURN s.name");
        Made (RAGAnswerQuestion "Who gave the keynote?" "Jane Doe")])
  ∧ judge_parse demo_verdict = Ok (4, JStr "close")
  ∧ exec (scripted (demo_script (Ok demo_verdict)))
      (evaluate_question demo_rag demo_question) ()
    = (Ok demo_record, (),
       [Made (RAGText2Cypher "schema" "Who gave the keynote?");
        Made (Execute "MATCH (s:Speaker) RETURN s.name");
        Made (RAGAnswerQuestion "Who gave the keynote?" "Jane Doe");
        Made (GenerateContent
                (judge_prompt "Who gave the keynote?" "Jane Doe"
                   "Jane Doe gave the keynote."))]).
Proof.
  split; [reflexivity|]. split; [reflexivity|].
  exact (evaluate_question_judged (scripted (demo_script (Ok demo_verdict)))
           () () ()
           [Made (RAGText2Cypher "schema" "Who gave the keynote?");
            Made (Execute "MATCH (s:Speaker) RETURN s.name");
            Made (RAGAnswerQuestion "Who gave the keynote?" "Jane Doe")]
           demo_rag demo_question
           {| rag_question := "Who gave the keynote?";
              rag_cypher := "MATCH (s:Speaker) RETURN s.name";
              rag_response := "Jane Doe gave the keynote." |}
           demo_verdict 4 (JStr "close") eq_refl
           ltac:(discriminate) ltac:(discriminate) eq_refl eq_refl).
Defined.

Lemma base_exception_leaves_the_loop_witness :
  exec (scripted interrupted_script)
    (run demo_rag (q_question demo_question)) ()
    = (Raised (BaseExceptionOther "KeyboardInterrupt"), (),
       [Made (RAGText2Cypher "schema" "Who gave the keynote?")])
  ∧ is_Exception (BaseExceptionOther "KeyboardInterrupt") = false
  ∧ exec (scripted interrupted_script)
      (evaluate_question demo_rag demo_question) ()
    = (Raised (BaseExceptionOther "KeyboardInterrupt"), (),
       [Made (RAGText2Cypher "schema" "Who gave the keynote?")])
  ∧ exec (scripted interrupted_script)
      (evaluation_loop demo_rag [demo_question; demo_question] []) ()
    = (Raised (BaseExceptionOther "KeyboardInterrupt"), (),
       [Made (RAGText2Cypher "schema" "Who gave the keynote?")]).
Proof.
  split; [reflexivity|]. split; [reflexivity|].
  apply (base_exception_leaves_the_loop (scripted interrupted_script) () ()
           _ demo_rag demo_question
           (BaseExceptionOther "KeyboardInterrupt") [demo_question] []);
    reflexivity.
Defined.

Lemma evaluation_loop_keeps_order_witness :
  (exec (scripted (demo_script (Ok demo_verdict)))
     (evaluation_loop demo_rag [demo_question] []) ()).1
    = (Ok [demo_record], ())
  ∧ Forall2 (λ q r,
               r_id r = q_id q ∧ r_question r = q_question q
               ∧ r_baseline r = q_baseline q)
      [demo_question] [demo_record].
Proof.
  split; [reflexivity|].
  apply (evaluation_loop_keeps_order (scripted (demo_script (Ok demo_verdict)))
           demo_rag [demo_question] () [demo_record] ()
           (exec (scripted (demo_script (Ok demo_verdict)))
              (evaluation_loop demo_rag [demo_question] []) ()).2).
  reflexivity.
Defined.

Lemma evaluation_records_are_consistent_witness :
  (exec (scripted (demo_script (Ok demo_verdict)))
     (evaluation_loop demo_rag [demo_question] []) ()).1
    = (Ok [demo_record], ())
  ∧ Forall (λ r,
              r_label r = default "unknown" (SCORE_LABELS !! r_score r)
              ∧ (r_error r ≠ None →
                 r_score r = 1 ∧ r_label r = "no_answer"
                 ∧ r_response r = "" ∧ r_cypher r = ""))
      [demo_record].
Proof.
  split; [reflexivity|].
  apply (evaluation_records_are_consistent
           (scripted (demo_script (Ok demo_verdict)))
           demo_rag [demo_question] () [demo_record] ()
           (exec (scripted (demo_script (Ok demo_verdict)))
              (evaluation_loop demo_rag [demo_question] []) ()).2).
  reflexivity.
Defined.
